(** * Clue Hunt (hard mode): seeded derivation and answer validation

    A shallow embedding of [src/game.js]: the string hash [seedToInt], the
    [xorshift32] generator, the selection of the ten clue words, their
    placement in the 32-cell grid, and the click handlers that validate the
    player's answers.

    Conventions of the embedding.
    - A JavaScript string is the list of its UTF-16 code units ([jsstring]);
      [undefined] is [None] of an option type.
    - The 32-bit operators [<<], [>>>], [^] are written with the conversions
      ToInt32 / ToUint32 of the language, on [Z].
    - The number returned by the generator, [x / 0xFFFFFFFF], is the exact
      rational (type [Q]); [Math.floor] is [Qfloor].  The binary64 rounding of
      the quotient and of the products is not part of this model; the
      quotient alone is also given in binary64 ([rand_binary64]), to evaluate
      it where the exact value is 1.
    - A [TypeError] thrown while the page loads aborts the load handler; it is
      the [TypeError] constructor of [result]. *)

From Stdlib Require Import ZArith QArith Qround Lia List String Ascii.
From Stdlib Require Import Floats Uint63.
From stdpp Require Import base list.
Import ListNotations.

Local Open Scope Z_scope.

(** ** JavaScript values *)

Definition jsstring : Type := list Z.

(** The code units of a literal (all literals of the source that take part
    in a computation are ASCII). *)
Definition js (s : string) : jsstring :=
  List.map (fun a => Z.of_N (N_of_ascii a)) (list_ascii_of_string s).

Inductive result (A : Type) : Type :=
| Ok (a : A)
| TypeError.
Arguments Ok {A} a.
Arguments TypeError {A}.

Module JS.

Definition ToUint32 (z : Z) : Z := z mod 2 ^ 32.

Definition ToInt32 (z : Z) : Z :=
  let u := z mod 2 ^ 32 in if u <? 2 ^ 31 then u else u - 2 ^ 32.

(** [a << k] *)
Definition shl (a k : Z) : Z := ToInt32 (Z.shiftl (ToInt32 a) (k mod 32)).

(** [a >>> k] *)
Definition ushr (a k : Z) : Z := Z.shiftr (ToUint32 a) (k mod 32).

(** [a ^ b] *)
Definition xor (a b : Z) : Z := Z.lxor (ToInt32 a) (ToInt32 b).

(** [Math.floor] on the exact value. *)
Definition floor (q : Q) : Z := Qfloor q.

(** [arr[i]] for a number [i] that is an integer: [undefined] outside the
    array. *)
Definition index {A : Type} (arr : list A) (i : Z) : option A :=
  if i <? 0 then None else arr !! Z.to_nat i.

(** [ch.toUpperCase()] on one code unit, ASCII range: the letters a-z are
    mapped to A-Z.  Outside ASCII the Unicode case mapping is not modelled
    (the unit is left as it is); the program only upper-cases units of
    [WORDS] and units kept by the filter of [norm], which are ASCII. *)
Definition toUpperCase1 (c : Z) : Z :=
  if (97 <=? c) && (c <=? 122) then c - 32 else c.

Definition hexdigit (d : Z) : Z := if d <? 10 then 48 + d else 87 + d.

Fixpoint toHex (fuel : nat) (n : Z) (acc : jsstring) : jsstring :=
  match fuel with
  | O => acc
  | S f =>
      let acc' := hexdigit (n mod 16) :: acc in
      if n / 16 =? 0 then acc' else toHex f (n / 16) acc'
  end.

(** [n.toString(16)] for a uint32 [n] (at most eight digits). *)
Definition toString16 (n : Z) : jsstring := toHex 8 n [].

(** [s.padStart(n, '0')] *)
Definition padStart0 (n : nat) (s : jsstring) : jsstring :=
  replicate (n - length s) 48 ++ s.

End JS.

(** ** The word list and the generator *)

Definition WORDS : list jsstring := List.map js
  [ "ALPHA"; "BRAVO"; "CHARLIE"; "DELTA"; "ECHO"; "FOXTROT"; "GOLF"; "HOTEL";
    "INDIA"; "JULIET"; "KILO"; "LIMA"; "MIKE"; "NOVEMBER"; "OSCAR"; "PAPA";
    "QUEBEC"; "ROMEO"; "SIERRA"; "TANGO"; "UNIFORM"; "VICTOR"; "WHISKEY";
    "XRAY"; "YANKEE"; "ZULU"; "PEN"; "KEY"; "GOLD"; "STEEL"; "BRIDGE";
    "RIVER"; "JOIN"; "PLACE"; "STEEP" ]%string.

(** [xorshift32(seed)]: the closure's captured variable [x], as first set. *)
Definition xorshift32 (seed : Z) : Z := JS.ToUint32 seed.

(** The three update statements of the closure's body. *)
Definition xorshift_step (x : Z) : Z :=
  let x := JS.ToUint32 (JS.xor x (JS.shl x 13)) in
  let x := JS.ToUint32 (JS.xor x (JS.ushr x 17)) in
  let x := JS.ToUint32 (JS.xor x (JS.shl x 5)) in
  x.

(** One call [rand()] of the closure whose variable holds [x]: the number
    returned and the new content of the variable. *)
Definition rand (x : Z) : Q * Z :=
  let x' := xorshift_step x in (x' # 4294967295, x').

(** The same quotient [x / 0xFFFFFFFF] in binary64 arithmetic; both operands
    are integers below 2^53, hence exact as numbers of the language. *)
Definition number_of_uint32 (z : Z) : PrimFloat.float :=
  PrimFloat.of_uint63 (Uint63.of_Z z).

Definition rand_binary64 (x : Z) : PrimFloat.float :=
  PrimFloat.div (number_of_uint32 (xorshift_step x))
    (number_of_uint32 4294967295).

(** [seedToInt]: the loop body, then the loop over the code units. *)
Definition seedToInt_step (n c : Z) : Z :=
  let n := JS.xor n c in
  let n := n + (JS.shl n 1 + JS.shl n 4 + JS.shl n 7 + JS.shl n 8 + JS.shl n 24) in
  JS.ToUint32 n.

Definition seedToInt (str : jsstring) : Z :=
  JS.ToUint32 (fold_left seedToInt_step str (JS.ToUint32 2166136261)).

(** ** Clue selection *)

(** An entry of the array [clues]: a word, or [undefined] ([None]) when the
    index computed from the draw is outside [WORDS]. *)
Definition jsval : Type := option jsstring.

Definition CLUE_COUNT : nat := 10.

(** The loop [for (i = 0; i < CLUE_COUNT; i++)]: [count] iterations remain,
    [x] is the generator's variable, [clues] the array built so far. *)
Fixpoint select_clues (count : nat) (x : Z) (clues : list jsval)
  : list jsval * Z :=
  match count with
  | O => (clues, x)
  | S k =>
      let '(r, x') := rand x in
      let idx := JS.floor (r * inject_Z (Z.of_nat (length WORDS))) in
      select_clues k x' (clues ++ [JS.index WORDS idx])
  end.

(** ** The grid *)

Definition totalCells : Z := 8 * 4.

(** The custom properties the placement sets on a cell's style. *)
Record style : Type := mkStyle {
  prop_t : jsstring;           (* --t *)
  prop_c : jsstring;           (* --c *)
  prop_background : jsstring;  (* background *)
  prop_s : jsstring            (* --s *)
}.

(** A cell of the array [cells]: [None] while the placement has set no
    property on it. *)
Definition cell : Type := option style.

(** [charToken(ch)]; [ch] is [chars[j]], a one-unit string or [undefined]. *)
Definition charToken (ch : option Z) : jsstring :=
  match ch with
  | None => js "."
  | Some ch =>
      let c := JS.toUpperCase1 ch in
      if (65 <=? c) && (c <=? 90) then [c]
      else if c =? 45 then js "-"
      else js "."
  end.

Record entry : Type := mkEntry {
  word : jsstring;
  start : Z;
  len : Z
}.

(** ['#' + (Math.floor(r * 0xFFFFFF) >>> 0).toString(16).padStart(6, '0')] *)
Definition colorCode (r : Q) : jsstring :=
  js "#" ++
  JS.padStart0 6 (JS.toString16 (JS.ushr (JS.floor (r * inject_Z 16777215)) 0)).

(** The one-unit string holding a double quote (code unit 34). *)
Definition dquote : jsstring := [34].

(** The four [setProperty] calls of the inner loop, for a token and a color. *)
Definition cellStyle (token color : jsstring) : style :=
  {| prop_t := dquote ++ token ++ dquote;
     prop_c := color;
     prop_background :=
       js "linear-gradient(90deg," ++ color ++ js " 0%, rgba(0,0,0,0) 100%)";
     prop_s := js "0" |}.

(** The inner loop [for (j = 0; j < len; j++)]: [n] iterations remain and the
    loop variable is [j].  [cells[start + j]] outside the array is
    [undefined], and reading [.style] of it throws. *)
Fixpoint place_chars (chars : jsstring) (start : Z) (n : nat) (j : Z)
    (x : Z) (cells : list cell) : result (Z * list cell) :=
  match n with
  | O => Ok (x, cells)
  | S k =>
      match JS.index cells (start + j) with
      | None => TypeError
      | Some _ =>
          let token := charToken (JS.index chars j) in
          let '(r, x') := rand x in
          let st := cellStyle token (colorCode r) in
          place_chars chars start k (j + 1) x'
            (<[Z.to_nat (start + j) := Some st]> cells)
      end
  end.

(** The outer loop [for (wi = 0; wi < clues.length; wi++)] over the clues
    that remain; [w.split('')] throws when [w] is [undefined]. *)
Fixpoint place_clues (clues : list jsval) (x : Z) (mapping : list entry)
    (cells : list cell) : result (list entry * list cell * Z) :=
  match clues with
  | [] => Ok (mapping, cells, x)
  | None :: _ => TypeError
  | Some w :: rest =>
      let chars := w in
      let len := Z.min (Z.of_nat (length chars)) 6 in
      let '(r, x1) := rand x in
      let start := JS.floor (r * inject_Z (totalCells - len)) in
      let mapping' := mapping ++ [mkEntry w start len] in
      match place_chars chars start (Z.to_nat len) 0 x1 cells with
      | TypeError => TypeError
      | Ok (x2, cells') => place_clues rest x2 mapping' cells'
      end
  end.

(** What the load handler has derived from the seed when it reaches the
    code that installs the click handlers. *)
Record derived : Type := mkDerived {
  clues : list jsval;
  mapping : list entry;
  cells : list cell
}.

(** The derivation part of the load handler, for the seed [getSeed()]
    returned. *)
Definition derive (seed : jsstring) : result derived :=
  let x := xorshift32 (seedToInt seed) in
  let '(clues, x) := select_clues CLUE_COUNT x [] in
  let cells := replicate (Z.to_nat totalCells) None in
  match place_clues clues x [] cells with
  | TypeError => TypeError
  | Ok (mapping, cells, _) => Ok (mkDerived clues mapping cells)
  end.

(** ** Validation *)

(** [norm(s)]: [s || ''] turns [undefined] and the empty string into the
    empty string; the regular expression removes every code unit outside
    [A-Za-z0-9-]; what remains is upper-cased. *)
Definition norm_keep (c : Z) : bool :=
  ((65 <=? c) && (c <=? 90)) || ((97 <=? c) && (c <=? 122)) ||
  ((48 <=? c) && (c <=? 57)) || (c =? 45).

Definition norm (s : jsval) : jsstring :=
  let s := match s with Some s => s | None => [] end in
  List.map JS.toUpperCase1 (List.filter norm_keep s).

(** [clues.join(sep)]: an [undefined] element is joined as the empty
    string. *)
Fixpoint join (sep : jsstring) (l : list jsval) : jsstring :=
  match l with
  | [] => []
  | a :: rest =>
      let a := match a with Some a => a | None => [] end in
      match rest with
      | [] => a
      | _ :: _ => a ++ sep ++ join sep rest
      end
  end.

(** [clues[i]]: [undefined] outside the array, else the element, which may
    itself be [undefined]. *)
Definition clue_at (clues : list jsval) (i : Z) : jsval :=
  match JS.index clues i with
  | Some w => w
  | None => None
  end.

(** The texts the handlers write; each constructor stands for the literal of
    the source given beside it. *)
Inductive hint_text : Type :=
| PleaseEnter      (* 'Please enter an answer.' *)
| IncorrectHint    (* 'Incorrect. Use _clueApi.listMapping() and DevTools on the grid.' *)
| HintMsg (index start len : Z).
                   (* 'HINT: word #' + index + ' occupies cells starting at index '
                      + start + ' for length ' + len + '. Use _clueApi.revealWord(...).' *)

Inductive log_msg : Type :=
| LogDevApi        (* 'Dev API: _clueApi.listMapping(), ...' *)
| LogUseElements   (* 'Use Elements ... to reveal letters.' *)
| LogCorrect (w : jsval)            (* 'Correct ... ' + clues[current - 1] *)
| LogIncorrect     (* 'Incorrect. Reveal the correct cells for this step ...' *)
| LogHint (index start len : Z)     (* the text of [HintMsg] *)
| LogFinalSuccess  (* 'FINAL: success' *)
| LogFinalIncorrect.                (* 'FINAL: incorrect' *)

Inductive inst_text : Type :=
| InstStep (current : Z)  (* 'Step ' + current + ': Use the grid and _clueApi ...' *)
| InstAllFound.           (* 'All clues found. Enter the final passphrase.' *)

Inductive final_msg : Type :=
| Congratulations   (* color 'lightgreen', '... Congratulations ... you solved the Hard Mode!' *)
| PassphraseIncorrect.
                    (* color '#ffb4b4', 'Final passphrase incorrect. Combine all 10 words ...' *)

Inductive placeholder_text : Type :=
| MarkupPlaceholder        (* whatever the page markup gives *)
| EnterFinalPassphrase.    (* 'Enter final passphrase (words hyphen-separated)' *)

(** The variables and the elements of the page the handlers read and write.
    All the elements looked up by id are taken to exist. *)
Record page : Type := mkPage {
  data : derived;                       (* clues, mapping, cells *)
  current : Z;
  answer_value : jsstring;              (* answer.value *)
  stepNum : Z;                          (* stepNum.textContent, String(current) *)
  inst : inst_text;                     (* inst.textContent *)
  hintBox : option hint_text;           (* hintBox.textContent; None: the markup's *)
  finalInput_disabled : bool;
  finalInput_placeholder : placeholder_text;
  finalInput_value : jsstring;
  finalBtn_disabled : bool;
  finalMsg : option final_msg;          (* None: the markup's *)
  consoleLog : list log_msg             (* the messages passed to clog, in order *)
}.

Definition set_data (v : derived) (p : page) : page :=
  mkPage v (current p) (answer_value p) (stepNum p) (inst p) (hintBox p)
    (finalInput_disabled p) (finalInput_placeholder p) (finalInput_value p)
    (finalBtn_disabled p) (finalMsg p) (consoleLog p).
Definition set_current (v : Z) (p : page) : page :=
  mkPage (data p) v (answer_value p) (stepNum p) (inst p) (hintBox p)
    (finalInput_disabled p) (finalInput_placeholder p) (finalInput_value p)
    (finalBtn_disabled p) (finalMsg p) (consoleLog p).
Definition set_answer_value (v : jsstring) (p : page) : page :=
  mkPage (data p) (current p) v (stepNum p) (inst p) (hintBox p)
    (finalInput_disabled p) (finalInput_placeholder p) (finalInput_value p)
    (finalBtn_disabled p) (finalMsg p) (consoleLog p).
Definition set_stepNum (v : Z) (p : page) : page :=
  mkPage (data p) (current p) (answer_value p) v (inst p) (hintBox p)
    (finalInput_disabled p) (finalInput_placeholder p) (finalInput_value p)
    (finalBtn_disabled p) (finalMsg p) (consoleLog p).
Definition set_inst (v : inst_text) (p : page) : page :=
  mkPage (data p) (current p) (answer_value p) (stepNum p) v (hintBox p)
    (finalInput_disabled p) (finalInput_placeholder p) (finalInput_value p)
    (finalBtn_disabled p) (finalMsg p) (consoleLog p).
Definition set_hintBox (v : hint_text) (p : page) : page :=
  mkPage (data p) (current p) (answer_value p) (stepNum p) (inst p) (Some v)
    (finalInput_disabled p) (finalInput_placeholder p) (finalInput_value p)
    (finalBtn_disabled p) (finalMsg p) (consoleLog p).
Definition set_finalInput_disabled (v : bool) (p : page) : page :=
  mkPage (data p) (current p) (answer_value p) (stepNum p) (inst p) (hintBox p)
    v (finalInput_placeholder p) (finalInput_value p)
    (finalBtn_disabled p) (finalMsg p) (consoleLog p).
Definition set_finalInput_placeholder (v : placeholder_text) (p : page) : page :=
  mkPage (data p) (current p) (answer_value p) (stepNum p) (inst p) (hintBox p)
    (finalInput_disabled p) v (finalInput_value p)
    (finalBtn_disabled p) (finalMsg p) (consoleLog p).
Definition set_finalInput_value (v : jsstring) (p : page) : page :=
  mkPage (data p) (current p) (answer_value p) (stepNum p) (inst p) (hintBox p)
    (finalInput_disabled p) (finalInput_placeholder p) v
    (finalBtn_disabled p) (finalMsg p) (consoleLog p).
Definition set_finalBtn_disabled (v : bool) (p : page) : page :=
  mkPage (data p) (current p) (answer_value p) (stepNum p) (inst p) (hintBox p)
    (finalInput_disabled p) (finalInput_placeholder p) (finalInput_value p)
    v (finalMsg p) (consoleLog p).
Definition set_finalMsg (v : final_msg) (p : page) : page :=
  mkPage (data p) (current p) (answer_value p) (stepNum p) (inst p) (hintBox p)
    (finalInput_disabled p) (finalInput_placeholder p) (finalInput_value p)
    (finalBtn_disabled p) (Some v) (consoleLog p).

(** [clog(msg)] *)
Definition clog (msg : log_msg) (p : page) : page :=
  mkPage (data p) (current p) (answer_value p) (stepNum p) (inst p) (hintBox p)
    (finalInput_disabled p) (finalInput_placeholder p) (finalInput_value p)
    (finalBtn_disabled p) (finalMsg p) (consoleLog p ++ [msg]).

Definition updateUI (p : page) : page :=
  set_inst (InstStep (current p)) (set_stepNum (current p) p).

(** The click handler of [submitBtn]. *)
Definition submit_click (p : page) : page :=
  let val := norm (Some (answer_value p)) in
  let expected := norm (clue_at (clues (data p)) (current p - 1)) in
  match val with
  | [] => set_hintBox PleaseEnter p
  | _ :: _ =>
      if decide (val = expected) then
        let p := clog (LogCorrect (clue_at (clues (data p)) (current p - 1))) p in
        let p := set_current (current p + 1) p in
        let p := set_answer_value [] p in
        if current p >? Z.of_nat CLUE_COUNT then
          let p := set_finalInput_disabled false p in
          let p := set_finalInput_placeholder EnterFinalPassphrase p in
          let p := set_finalBtn_disabled false p in
          set_inst InstAllFound p
        else updateUI p
      else
        let p := clog LogIncorrect p in
        set_hintBox IncorrectHint p
  end.

(** The click handler of [hintBtn]. *)
Definition hint_click (p : page) : page :=
  match JS.index (mapping (data p)) (current p - 1) with
  | None => p
  | Some m =>
      let p := clog (LogHint (current p - 1) (start m) (len m)) p in
      set_hintBox (HintMsg (current p - 1) (start m) (len m)) p
  end.

(** The click handler of [finalBtn]. *)
Definition final_click (p : page) : page :=
  let given := norm (Some (finalInput_value p)) in
  let expected := norm (Some (join (js "-") (clues (data p)))) in
  if decide (given = expected) then
    let p := set_finalMsg Congratulations p in
    clog LogFinalSuccess p
  else
    let p := set_finalMsg PassphraseIncorrect p in
    clog LogFinalIncorrect p.

(** The page when the load handler returns, for derived data [d].  The
    markup of the page is not part of the sources; [markup_final_disabled]
    says whether it carries the [disabled] attribute on [finalInput] and
    [finalBtn]. *)
Definition init_page (markup_final_disabled : bool) (d : derived) : page :=
  updateUI
    (clog LogUseElements
       (clog LogDevApi
          (mkPage d 1 [] 0 (InstStep 0) None markup_final_disabled
             MarkupPlaceholder [] markup_final_disabled None []))).

(** What the player does.  The browser dispatches no click to a disabled
    button and lets no text be typed in a disabled input.  The regenerate
    button reloads the page, which starts over from [init_page]; the console
    helpers ([_clueApi], [_revealCellsForTesting]) only log, or flip the
    display flag [--s] of the cells, and are left out. *)
Inductive event : Type :=
| TypeAnswer (s : jsstring)
| ClickSubmit
| ClickHint
| TypeFinal (s : jsstring)
| ClickFinal.

Definition step (p : page) (e : event) : page :=
  match e with
  | TypeAnswer s => set_answer_value s p
  | ClickSubmit => submit_click p
  | ClickHint => hint_click p
  | TypeFinal s =>
      if finalInput_disabled p then p else set_finalInput_value s p
  | ClickFinal => if finalBtn_disabled p then p else final_click p
  end.

Definition run (p : page) (es : list event) : page := fold_left step es p.

(** The states of the specification's machine, read off the page. *)
Definition in_final (p : page) : Prop := Z.of_nat CLUE_COUNT < current p.
Definition solved (p : page) : Prop :=
  finalMsg p = Some Congratulations \/ In LogFinalSuccess (consoleLog p).

(** ** The generator as the specification words it

    "Maintain a 32-bit unsigned state, on each call apply [x ^= x<<13;
    x ^= x>>>17; x ^= x<<5] (each masked to 32 bits)": the same three steps
    on unsigned integers with an explicit mask, to be compared with
    [xorshift_step]. *)
Definition mask32 (z : Z) : Z := Z.land z 4294967295.

Definition xorshift_masked (x : Z) : Z :=
  let x := mask32 (Z.lxor x (Z.shiftl x 13)) in
  let x := mask32 (Z.lxor x (Z.shiftr x 17)) in
  let x := mask32 (Z.lxor x (Z.shiftl x 5)) in
  x.

(** The content of the generator's variable after [n] calls. *)
Fixpoint state_after (x : Z) (n : nat) : Z :=
  match n with
  | O => x
  | S k => state_after (xorshift_step x) k
  end.

(** The number returned by the [n]-th call (counted from 1) of the generator
    [xorshift32(seed)]. *)
Definition nth_draw (seed : Z) (n : nat) : Q :=
  match n with
  | O => 0
  | S k => fst (rand (state_after (xorshift32 seed) k))
  end.

(** ** The cell writes of the placement, word by word

    [place_clues] leaves in [cells] only the last style written to each
    cell.  To say which word wrote what, the same loops are read once more
    as the list of their writes: for each word the entry pushed to [mapping]
    and the styles set on the cells [start], [start + 1], ... in order. *)

(** The styles the inner loop sets for the characters [j], [j + 1], ...
    ([n] of them), and the generator's variable afterwards. *)
Fixpoint char_styles (chars : jsstring) (n : nat) (j : Z) (x : Z)
  : list style * Z :=
  match n with
  | O => ([], x)
  | S k =>
      let token := charToken (JS.index chars j) in
      let '(r, x') := rand x in
      let st := cellStyle token (colorCode r) in
      let '(rest, x'') := char_styles chars k (j + 1) x' in
      (st :: rest, x'')
  end.

Fixpoint placements (clues : list jsval) (x : Z) : list (entry * list style) :=
  match clues with
  | [] => []
  | None :: _ => []
  | Some w :: rest =>
      let len := Z.min (Z.of_nat (length w)) 6 in
      let '(r, x1) := rand x in
      let start := JS.floor (r * inject_Z (totalCells - len)) in
      let '(sts, x2) := char_styles w (Z.to_nat len) 0 x1 in
      (mkEntry w start len, sts) :: placements rest x2
  end.

(** The writes of the placement for a seed. *)
Definition placed (seed : jsstring) : list (entry * list style) :=
  let '(clues, x) :=
    select_clues CLUE_COUNT (xorshift32 (seedToInt seed)) [] in
  placements clues x.

(** Writing a run of styles to consecutive cells from index [i]. *)
Fixpoint write_run (i : nat) (sts : list style) (cells : list cell)
  : list cell :=
  match sts with
  | [] => cells
  | st :: rest => write_run (S i) rest (<[i := Some st]> cells)
  end.

Definition apply_placements (ps : list (entry * list style))
    (cells : list cell) : list cell :=
  fold_left (fun cs p => write_run (Z.to_nat (start (fst p))) (snd p) cs)
    ps cells.

(** The cell of index [c] is one of the cells of the entry [e]. *)
Definition covers (e : entry) (c : Z) : Prop :=
  start e <= c < start e + len e.

(** The word picked for the draw made in state [x]. *)
Definition pick (x : Z) : jsval :=
  JS.index WORDS
    (JS.floor (fst (rand x) * inject_Z (Z.of_nat (length WORDS)))).

(** The words picked by [n] successive draws from state [x]. *)
Fixpoint picks (x : Z) (n : nat) : list jsval :=
  match n with
  | O => []
  | S k => pick x :: picks (xorshift_step x) k
  end.

(** What holds of every write list: the length is the word's length capped
    at 6, the start offset keeps the run inside the grid, one style is
    written per cell of the run, and the [k]-th style carries the token of
    the word's [k]-th character. *)
Definition placement_ok (p : entry * list style) : Prop :=
  len (fst p) = Z.min (Z.of_nat (length (word (fst p)))) 6
  /\ 0 <= start (fst p) <= totalCells - len (fst p)
  /\ length (snd p) = Z.to_nat (len (fst p))
  /\ (forall (k : nat) (st : style), snd p !! k = Some st ->
        prop_t st
        = dquote ++ charToken (JS.index (word (fst p)) (Z.of_nat k)) ++ dquote).

(** What every page reached from [init_page markup d] satisfies, for a clue
    array of ten entries: the derived data is [d], the counter is in 1..11,
    and, when the markup disables the final controls, they stay disabled and
    no final submission has been handled as long as the counter is at
    most 10. *)
Definition page_inv (markup : bool) (d : derived) (p : page) : Prop :=
  data p = d
  /\ 1 <= current p <= 11
  /\ (markup = true -> current p <= 10 ->
        finalBtn_disabled p = true /\ finalInput_disabled p = true
        /\ finalMsg p = None /\ ~ In LogFinalSuccess (consoleLog p)).

(** Projections of updated pages. *)
Ltac page_simpl :=
  cbn [data current answer_value stepNum inst hintBox finalInput_disabled
       finalInput_placeholder finalInput_value finalBtn_disabled finalMsg
       consoleLog set_data set_current set_answer_value set_stepNum set_inst
       set_hintBox set_finalInput_disabled set_finalInput_placeholder
       set_finalInput_value set_finalBtn_disabled set_finalMsg clog updateUI
       init_page].

(** ** The hash as the specification words it

    "A 32-bit FNV-style fold: start from a fixed offset basis; for each
    character, XOR its code point into the accumulator, then apply the mixing
    transform, masking to 32 bits": the FNV-1a fold on unsigned integers,
    with the transform written as the multiplication it amounts to. *)
Definition FNV_prime : Z := 16777619.

Definition fnv1a_step (n c : Z) : Z := (Z.lxor n c * FNV_prime) mod 2 ^ 32.

Definition fnv1a (str : jsstring) : Z := fold_left fnv1a_step str 2166136261.

(** A UTF-16 code unit. *)
Definition code_unit (c : Z) : Prop := 0 <= c < 65536.


(** ** What the placement writes, as predicates *)

Definition lower_hex (c : Z) : bool :=
  ((48 <=? c) && (c <=? 57)) || ((97 <=? c) && (c <=? 102)).

(** A CSS color in the six-digit form: ['#'] and six lowercase hexadecimal
    digits. *)
Definition css_hex_color (s : jsstring) : Prop :=
  exists ds, s = 35 :: ds /\ length ds = 6%nat /\ forallb lower_hex ds = true.

Definition upper_letter (c : Z) : bool := (65 <=? c) && (c <=? 90).

(** A style the inner loop can set while it places the word [w]: the token
    of one of its first six characters, and the color of some draw. *)
Definition style_from_loop (w : jsstring) (st : style) : Prop :=
  exists (j x : Z),
    0 <= j < Z.of_nat (length w) /\ j < 6
    /\ st = cellStyle (charToken (JS.index w j)) (colorCode (fst (rand x))).


(** ** The seed provider *)

Definition digit36 (d : Z) : Z := if d <? 10 then 48 + d else 87 + d.

Fixpoint toDigits36 (fuel : nat) (n : Z) (acc : jsstring) : jsstring :=
  match fuel with
  | O => acc
  | S f =>
      let acc' := digit36 (n mod 36) :: acc in
      if n / 36 =? 0 then acc' else toDigits36 f (n / 36) acc'
  end.

(** [n.toString(36)] for an integer [0 <= n < 36^7]; the program calls it
    on integers below 1e9, which have at most six digits. *)
Definition toString36 (n : Z) : jsstring := toDigits36 7 n [].

(** [Math.floor(Math.random() * 1e9).toString(36)], where [rnd] is the
    number [Math.random()] returns.  The product is taken exactly; the
    binary64 product of a number below 1 is below 1e9 as well (the largest
    one, [(1 - 2^-53) * 1e9], rounds to [1e9 - 2^-23]), so the floor is an
    integer of [0, 1e9) either way. *)
Definition freshSeed (rnd : Q) : jsstring :=
  toString36 (JS.floor (rnd * inject_Z 1000000000)).

(** What [getSeed] reads of the browser: the [seed] parameter of the URL
    ([URLSearchParams.get], [null] when absent) and the entry [clue_seed] of
    the session storage ([getItem], [null] when absent).  [null] is
    [None]. *)
Record browser : Type := mkBrowser {
  query_seed : jsval;
  session_seed : jsval
}.

(** Truthiness of a string or [null]: the empty string and [null] are
    falsy. *)
Definition truthy (s : jsval) : bool :=
  match s with
  | Some (_ :: _) => true
  | _ => false
  end.

(** [getSeed()]: the value returned and the browser afterwards; [rnd] is
    what [Math.random()] returns if it is called. *)
Definition getSeed (rnd : Q) (b : browser) : jsval * browser :=
  let s := query_seed b in
  let b := if truthy s then mkBrowser (query_seed b) s else b in
  let s := session_seed b in
  if truthy s then (s, b)
  else
    let s := Some (freshSeed rnd) in
    (s, mkBrowser (query_seed b) s).

(** The click handler of [regenBtn], up to [location.reload()], which runs
    the load handler, hence [getSeed], again on the browser it leaves. *)
Definition regen_click (rnd : Q) (b : browser) : browser :=
  mkBrowser (query_seed b) (Some (freshSeed rnd)).



(** ** Playing through *)

(** The player types each clue as it is and submits it, in order. *)
Definition play (ws : list jsstring) : list event :=
  flat_map (fun w => [TypeAnswer w; ClickSubmit]) ws.


Definition is_submit (e : event) : bool :=
  match e with
  | ClickSubmit => true
  | _ => false
  end.


(** ** The console helpers of [_clueApi] *)

(** [cluesMasked()], which is also the array [listMapping()] logs. *)
Definition clueApi_cluesMasked (mapping : list entry) : list (Z * Z) :=
  List.map (fun m => (start m, len m)) mapping.

(** What [revealWord] logs. *)
Inductive console_line : Type :=
| IndexOutOfRange                        (* 'index out of range' *)
| HintWord (index : Q) (len start : Z).  (* 'Hint: word at index', index,
                                            'has length', m.len, ..., m.start *)

(** [revealWord(index)] for a finite number [index]: for an index that is
    not an integer, [mapping[index]] is [undefined] and reading [m.len]
    throws. *)
Definition clueApi_revealWord (mapping : list entry) (index : Q)
  : result console_line :=
  if negb (Qle_bool 0 index)
     || Qle_bool (inject_Z (Z.of_nat (length mapping))) index
  then Ok IndexOutOfRange
  else
    let m :=
      if Qeq_bool index (inject_Z (Qfloor index))
      then mapping !! Z.to_nat (Qfloor index)
      else None in
    match m with
    | None => TypeError
    | Some m => Ok (HintWord index (len m) (start m))
    end.

(** The value of a hexadecimal digit, in either case. *)
Definition hexval (c : Z) : option Z :=
  if (48 <=? c) && (c <=? 57) then Some (c - 48)
  else if (97 <=? c) && (c <=? 102) then Some (c - 87)
  else if (65 <=? c) && (c <=? 70) then Some (c - 55)
  else None.

(** The code units [parseInt] skips at the start: white space (TAB, VT, FF,
    SP, NBSP, ZWNBSP and the other space separators) and line
    terminators. *)
Definition isStrWhiteSpace (c : Z) : bool :=
  existsb (Z.eqb c)
    [9; 10; 11; 12; 13; 32; 160; 5760; 8232; 8233; 8239; 8287; 12288; 65279]
  || ((8192 <=? c) && (c <=? 8202)).

Fixpoint trimStart (s : jsstring) : jsstring :=
  match s with
  | c :: r => if isStrWhiteSpace c then trimStart r else s
  | [] => []
  end.

(** The value of the longest prefix of hexadecimal digits, [acc] when there
    is none. *)
Fixpoint hexDigits (s : jsstring) (acc : option Z) : option Z :=
  match s with
  | c :: r =>
      match hexval c with
      | Some v =>
          hexDigits r (Some (16 * match acc with Some a => a | None => 0 end + v))
      | None => acc
      end
  | [] => acc
  end.

(** [parseInt(s, 16)]: white space is skipped, a sign is read, a prefix
    [0x] or [0X] is dropped, and the longest run of hexadecimal digits is
    the value; [None] is [NaN].  The program calls it on strings of at most
    two code units, whose value is exact. *)
Definition parseInt16 (s : jsstring) : option Z :=
  let s := trimStart s in
  let sign :=
    match s with
    | c :: _ => if c =? 45 then -1 else 1
    | [] => 1
    end in
  let s :=
    match s with
    | c :: r => if (c =? 45) || (c =? 43) then r else s
    | [] => s
    end in
  let s :=
    match s with
    | c0 :: c1 :: r =>
        if (c0 =? 48) && ((c1 =? 120) || (c1 =? 88)) then r else s
    | _ => s
    end in
  option_map (Z.mul sign) (hexDigits s None).

(** [hex.substr(i, 2)] for [0 <= i]. *)
Definition substr2 (hex : jsstring) (i : Z) : jsstring :=
  firstn 2 (skipn (Z.to_nat i) hex).

(** [key.charCodeAt((i / 2) % key.length)] for an even [i >= 0]: with an
    empty key the position is [NaN], read as 0, and the result is [NaN]. *)
Definition keyByteAt (key : jsstring) (i : Z) : option Z :=
  match key with
  | [] => None
  | _ :: _ => key !! Z.to_nat ((i / 2) mod Z.of_nat (length key))
  end.

(** A number as operand of [^]: [NaN] counts as 0. *)
Definition int_operand (n : option Z) : Z :=
  match n with
  | Some z => z
  | None => 0
  end.

(** [String.fromCharCode(n)] *)
Definition fromCharCode (n : Z) : jsstring := [n mod 65536].

(** The loop of [xor]: [fuel] bounds the iterations that remain, [i] is the
    loop variable and [out] the string built so far. *)
Fixpoint xor_from (fuel : nat) (hex key : jsstring) (i : Z) (out : jsstring)
  : jsstring :=
  match fuel with
  | O => out
  | S f =>
      if i <? Z.of_nat (length hex) then
        let encByte := parseInt16 (substr2 hex i) in
        let keyByte := keyByteAt key i in
        xor_from f hex key (i + 2)
          (out ++ fromCharCode (JS.xor (int_operand encByte) (int_operand keyByte)))
      else out
  end.

(** [_clueApi.xor(hex, key)]; the loop ends after at most [hex.length]
    iterations. *)
Definition clueApi_xor (hex key : jsstring) : jsstring :=
  xor_from (length hex) hex key 0 [].

(** The same decoding, pair by pair: [k] is the number of pairs already
    decoded. *)
Definition xor_unit (pair key : jsstring) (k : Z) : Z :=
  JS.xor (int_operand (parseInt16 pair)) (int_operand (keyByteAt key (2 * k)))
  mod 65536.

Fixpoint xor_pairs (rest key : jsstring) (k : Z) : jsstring :=
  match rest with
  | [] => []
  | [a] => [xor_unit [a] key k]
  | a :: b :: r => xor_unit [a; b] key k :: xor_pairs r key (k + 1)
  end.

(** The encoding [xor] reads, which the program itself does not contain:
    two lowercase hexadecimal digits for a byte, and a string of bytes in
    hexadecimal. *)
Definition hex2 (b : Z) : jsstring := [JS.hexdigit (b / 16); JS.hexdigit (b mod 16)].

Definition hexOfBytes (bs : list Z) : jsstring := flat_map hex2 bs.

Definition byte (b : Z) : Prop := 0 <= b < 256.

(** * Properties *)

(** ** Normalization *)

Section Norm.

Lemma toUpperCase1_idem (c : Z) :
  JS.toUpperCase1 (JS.toUpperCase1 c) = JS.toUpperCase1 c.
Proof.
  unfold JS.toUpperCase1.
  destruct ((97 <=? c) && (c <=? 122)) eqn:E; [|now rewrite E].
  apply andb_true_iff in E as [E1 E2].
  apply Z.leb_le in E1, E2.
  replace (97 <=? c - 32) with false by (symmetry; apply Z.leb_gt; lia).
  reflexivity.
Qed.

Lemma norm_keep_upper (c : Z) :
  norm_keep c = true -> norm_keep (JS.toUpperCase1 c) = true.
Proof.
  unfold JS.toUpperCase1.
  destruct ((97 <=? c) && (c <=? 122)) eqn:E; [|trivial].
  intros _. apply andb_true_iff in E as [E1 E2].
  apply Z.leb_le in E1, E2. unfold norm_keep.
  replace (65 <=? c - 32) with true by (symmetry; apply Z.leb_le; lia).
  replace (c - 32 <=? 90) with true by (symmetry; apply Z.leb_le; lia).
  reflexivity.
Qed.

(** On a string already normalized the filter keeps every unit. *)
Lemma filter_keep_normalized (s : jsstring) :
  List.filter norm_keep (List.map JS.toUpperCase1 (List.filter norm_keep s))
  = List.map JS.toUpperCase1 (List.filter norm_keep s).
Proof.
  induction s as [|c s IH]; [reflexivity|].
  cbn [List.filter]. destruct (norm_keep c) eqn:K; [|exact IH].
  cbn [List.map List.filter]. rewrite (norm_keep_upper c K). now rewrite IH.
Qed.

Lemma map_upper_idem (s : jsstring) :
  List.map JS.toUpperCase1 (List.map JS.toUpperCase1 s)
  = List.map JS.toUpperCase1 s.
Proof.
  induction s as [|c s IH]; [reflexivity|].
  cbn [List.map]. now rewrite toUpperCase1_idem, IH.
Qed.

End Norm.

(** C9. Normalization is idempotent: for every argument [x] of [norm] (a
    string, or [undefined]), normalizing the result of [norm x] again gives
    [norm x]. *)
Theorem norm_idempotent (x : jsval) : norm (Some (norm x)) = norm x.
Proof.
  unfold norm. destruct x as [s|]; [|reflexivity].
  now rewrite filter_keep_normalized, map_upper_idem.
Qed.

(** ** Step submissions *)

(** C8. A step submission whose answer normalizes to the empty string only
    writes the missing-input text to the hint box: nothing is logged (so no
    incorrect-answer signal), the step counter, the typed answer, the derived
    data and the final-phase controls stay as they are, and the outcome does
    not depend on the clues (no comparison with the expected word). *)
Theorem submit_empty_is_missing_input (p : page) (a : jsstring) :
  norm (Some a) = [] ->
  let p' := run p [TypeAnswer a; ClickSubmit] in
  p' = set_hintBox PleaseEnter (set_answer_value a p)
  /\ hintBox p' = Some PleaseEnter
  /\ consoleLog p' = consoleLog p
  /\ current p' = current p
  /\ data p' = data p
  /\ (forall d, run (set_data d p) [TypeAnswer a; ClickSubmit] = set_data d p').
Proof.
  intros Hn. cbn [run fold_left step]. unfold submit_click.
  cbn [answer_value set_answer_value]. rewrite Hn.
  split; [reflexivity|]. do 4 (split; [reflexivity|]).
  intros d. reflexivity.
Qed.

Lemma submit_empty_is_missing_input_witness :
  let p := init_page true (mkDerived [Some (js "DELTA")] [] []) in
  norm (Some (js " ?! ")) = []
  /\ current (run p [TypeAnswer (js " ?! "); ClickSubmit]) = 1
  /\ hintBox (run p [TypeAnswer (js " ?! "); ClickSubmit]) = Some PleaseEnter.
Proof.
  intros p.
  assert (H : norm (Some (js " ?! ")) = []) by reflexivity.
  split; [exact H|].
  destruct (submit_empty_is_missing_input p (js " ?! ") H)
    as (_ & Hh & _ & Hc & _).
  split; [exact Hc | exact Hh].
Defined.

(** C5. At a step in 1..10, for a typed answer whose normalization is not
    empty: when it equals the normalized clue of index step-1, the counter
    grows by exactly one, the answer field is emptied, the success is logged,
    and the final-phase controls are enabled exactly when the new step
    exceeds 10 (otherwise they are left as they were and the step display is
    refreshed); when it differs, the incorrect-answer texts are written to
    the log and the hint box and nothing else changes, in particular neither
    the counter nor the derived data. *)
Theorem submit_step (p : page) (a : jsstring) :
  1 <= current p <= 10 ->
  norm (Some a) <> [] ->
  let expected := norm (clue_at (clues (data p)) (current p - 1)) in
  let p' := run p [TypeAnswer a; ClickSubmit] in
  (norm (Some a) = expected ->
     current p' = current p + 1
     /\ answer_value p' = []
     /\ data p' = data p
     /\ consoleLog p' =
          consoleLog p ++ [LogCorrect (clue_at (clues (data p)) (current p - 1))]
     /\ (in_final p' <-> current p = 10)
     /\ (in_final p' ->
           finalInput_disabled p' = false /\ finalBtn_disabled p' = false
           /\ inst p' = InstAllFound)
     /\ (~ in_final p' ->
           finalInput_disabled p' = finalInput_disabled p
           /\ finalBtn_disabled p' = finalBtn_disabled p
           /\ inst p' = InstStep (current p') /\ stepNum p' = current p'))
  /\ (norm (Some a) <> expected ->
     p' = set_hintBox IncorrectHint (clog LogIncorrect (set_answer_value a p))
     /\ current p' = current p
     /\ data p' = data p
     /\ hintBox p' = Some IncorrectHint
     /\ consoleLog p' = consoleLog p ++ [LogIncorrect]).
Proof.
  intros Hc Hn expected p'. subst expected p'.
  cbn [run fold_left step]. unfold submit_click, in_final.
  cbn [answer_value set_answer_value data current].
  destruct (norm (Some a)) as [|c v] eqn:E; [congruence|].
  split; intros Hcmp.
  - destruct (decide _) as [_|Hne]; [|congruence].
    cbn [current set_current clog set_answer_value].
    change (Z.of_nat CLUE_COUNT) with 10.
    destruct (current p + 1 >? 10) eqn:G.
    + apply Z.gtb_lt in G. cbn. repeat split; try lia; intros; lia.
    + assert (current p + 1 <= 10) by (rewrite Z.gtb_ltb in G; apply Z.ltb_ge in G; lia).
      cbn. repeat split; try lia; intros; lia.
  - destruct (decide _) as [He|_]; [congruence|].
    cbn. repeat split.
Qed.

Lemma submit_step_witness :
  let p := init_page true (mkDerived [Some (js "DELTA"); Some (js "ECHO")] [] []) in
  1 <= current p <= 10
  /\ norm (Some (js "delta ")) <> []
  /\ norm (Some (js "delta ")) = norm (clue_at (clues (data p)) (current p - 1))
  /\ current (run p [TypeAnswer (js "delta "); ClickSubmit]) = 2.
Proof.
  intros p.
  assert (H1 : 1 <= current p <= 10) by (vm_compute; split; discriminate).
  assert (H2 : norm (Some (js "delta ")) <> []) by (vm_compute; discriminate).
  assert (H3 : norm (Some (js "delta "))
               = norm (clue_at (clues (data p)) (current p - 1))) by reflexivity.
  split; [exact H1|]. split; [exact H2|]. split; [exact H3|].
  destruct (submit_step p (js "delta ") H1 H2) as [Hm _].
  destruct (Hm H3) as (Hcur & _). exact Hcur.
Defined.

(** ** The final passphrase *)

(** C6. With the final controls enabled, a final submission shows the
    success message exactly when the normalized input equals the
    normalization of the clues joined by hyphens in selection order, and
    then logs the success; otherwise it shows and logs the retry message.
    Either way the step counter, the derived data (so the clue sequence) and
    the enabled final controls are unchanged. *)
Theorem final_submit (p : page) (given : jsstring) :
  finalInput_disabled p = false ->
  finalBtn_disabled p = false ->
  let expected := norm (Some (join (js "-") (clues (data p)))) in
  let p' := run p [TypeFinal given; ClickFinal] in
  (finalMsg p' = Some Congratulations <-> norm (Some given) = expected)
  /\ (norm (Some given) = expected ->
        consoleLog p' = consoleLog p ++ [LogFinalSuccess] /\ solved p')
  /\ (norm (Some given) <> expected ->
        finalMsg p' = Some PassphraseIncorrect
        /\ consoleLog p' = consoleLog p ++ [LogFinalIncorrect])
  /\ current p' = current p
  /\ data p' = data p
  /\ finalInput_disabled p' = false
  /\ finalBtn_disabled p' = false.
Proof.
  intros Hi Hb expected p'. subst expected p'.
  cbn [run fold_left step]. rewrite Hi.
  cbn [finalBtn_disabled set_finalInput_value]. rewrite Hb.
  unfold final_click, solved. cbn [finalInput_value set_finalInput_value data].
  destruct (decide _) as [He|Hne];
    cbn [finalMsg set_finalMsg clog consoleLog current data
         finalInput_disabled finalBtn_disabled].
  - split; [tauto|]. split; [intros _; split; [reflexivity|now left]|].
    split; [congruence|]. repeat split; assumption.
  - split; [split; congruence|]. split; [congruence|].
    split; [intros _; split; reflexivity|]. repeat split; assumption.
Qed.

Lemma final_submit_witness :
  exists d,
    derive (js "test1") = Ok d
    /\ let p :=
         run (init_page true d)
           (concat
              (List.map (fun w => [TypeAnswer (js w); ClickSubmit])
                 [ "delta"; "foxtrot"; "bravo"; "charlie"; "golf"; "victor";
                   "steel"; "echo"; "tango"; "november" ]%string)) in
       let pass :=
         js "Delta-Foxtrot-Bravo-Charlie-Golf-Victor-Steel-Echo-Tango-November" in
       finalInput_disabled p = false
       /\ finalBtn_disabled p = false
       /\ finalMsg (run p [TypeFinal pass; ClickFinal]) = Some Congratulations.
Proof.
  eexists. split; [vm_compute; reflexivity|].
  intros p pass.
  assert (H1 : finalInput_disabled p = false) by (vm_compute; reflexivity).
  assert (H2 : finalBtn_disabled p = false) by (vm_compute; reflexivity).
  split; [exact H1|]. split; [exact H2|].
  destruct (final_submit p pass H1 H2) as ([_ Hs] & _).
  apply Hs. vm_compute. reflexivity.
Defined.

(** ** Reachable pages *)

Lemma select_clues_length (n : nat) (x : Z) (acc : list jsval) :
  length (fst (select_clues n x acc)) = (length acc + n)%nat.
Proof.
  revert x acc. induction n as [|n IH]; intros x acc; cbn [select_clues].
  - cbn. lia.
  - destruct (rand x) as [r x']. rewrite IH, length_app. cbn. lia.
Qed.

Lemma derive_clues (seed : jsstring) (d : derived) :
  derive seed = Ok d ->
  clues d = fst (select_clues CLUE_COUNT (xorshift32 (seedToInt seed)) []).
Proof.
  unfold derive.
  destruct (select_clues CLUE_COUNT _ []) as [cl x].
  destruct (place_clues cl x [] _) as [[[m c] x']|]; [|discriminate].
  intros [= <-]. reflexivity.
Qed.

Lemma derive_clues_length (seed : jsstring) (d : derived) :
  derive seed = Ok d -> length (clues d) = CLUE_COUNT.
Proof.
  intros H. rewrite (derive_clues _ _ H), select_clues_length. reflexivity.
Qed.

Lemma clue_at_outside (cl : list jsval) (i : Z) :
  Z.of_nat (length cl) <= i -> clue_at cl i = None.
Proof.
  intros H. unfold clue_at, JS.index.
  destruct (i <? 0); [reflexivity|].
  rewrite lookup_ge_None_2; [reflexivity|lia].
Qed.

Lemma page_inv_init (markup : bool) (d : derived) :
  page_inv markup d (init_page markup d).
Proof.
  unfold page_inv. page_simpl. repeat split; try lia; try assumption.
  intros [Hin|[Hin|[]]]; discriminate.
Qed.

Lemma page_inv_step (markup : bool) (d : derived) (p : page) (e : event) :
  length (clues d) = CLUE_COUNT ->
  page_inv markup d p -> page_inv markup d (step p e).
Proof.
  intros Hlen (Hd & Hc & Hg). unfold page_inv.
  destruct e as [s| | |s|]; cbn [step].
  - (* typing an answer *)
    split; [exact Hd|]. split; [exact Hc|]. exact Hg.
  - (* submit *)
    unfold submit_click.
    destruct (norm (Some (answer_value p))) as [|c v] eqn:E.
    { split; [exact Hd|]. split; [exact Hc|]. exact Hg. }
    destruct (decide _) as [He|Hne].
    + assert (Hlt : current p <= 10).
      { destruct (Z_le_gt_dec (current p) 10) as [|Hgt]; [assumption|].
        rewrite Hd, clue_at_outside in He
          by (rewrite Hlen; change (Z.of_nat CLUE_COUNT) with 10; lia).
        discriminate. }
      cbn [current set_current clog set_answer_value].
      change (Z.of_nat CLUE_COUNT) with 10.
      destruct (current p + 1 >? 10) eqn:G.
      * apply Z.gtb_lt in G. page_simpl. split; [exact Hd|]. split; [lia|]. intros; lia.
      * assert (current p + 1 <= 10)
          by (rewrite Z.gtb_ltb in G; apply Z.ltb_ge in G; lia).
        page_simpl. split; [exact Hd|]. split; [lia|]. intros Hm _.
        destruct (Hg Hm Hlt) as (H1 & H2 & H3 & H4).
        repeat split; try assumption.
        rewrite in_app_iff. intros [Hin|[Hin|[]]]; [tauto|discriminate].
    + page_simpl. split; [exact Hd|]. split; [exact Hc|]. intros Hm Hl.
      destruct (Hg Hm Hl) as (H1 & H2 & H3 & H4).
      repeat split; try assumption.
      rewrite in_app_iff. intros [Hin|[Hin|[]]]; [tauto|discriminate].
  - (* hint *)
    unfold hint_click. destruct (JS.index _ _) as [m|].
    + page_simpl. split; [exact Hd|]. split; [exact Hc|]. intros Hm Hl.
      destruct (Hg Hm Hl) as (H1 & H2 & H3 & H4).
      repeat split; try assumption.
      rewrite in_app_iff. intros [Hin|[Hin|[]]]; [tauto|discriminate].
    + split; [exact Hd|]. split; [exact Hc|]. exact Hg.
  - (* typing the passphrase *)
    destruct (finalInput_disabled p) eqn:B;
      (page_simpl; split; [exact Hd|]; split; [exact Hc|]);
      [rewrite B; exact Hg|].
    intros Hm Hl. destruct (Hg Hm Hl) as (_ & H2 & _). congruence.
  - (* final submission *)
    destruct (finalBtn_disabled p) eqn:B.
    { split; [exact Hd|]. split; [exact Hc|]. rewrite B. exact Hg. }
    unfold final_click. destruct (decide _);
      (page_simpl; split; [exact Hd|]; split; [exact Hc|]; intros Hm Hl;
       destruct (Hg Hm Hl) as (H1 & _); congruence).
Qed.

Lemma page_inv_run (markup : bool) (d : derived) (es : list event) (p : page) :
  length (clues d) = CLUE_COUNT ->
  page_inv markup d p -> page_inv markup d (run p es).
Proof.
  intros Hlen. revert p. induction es as [|e es IH]; intros p Hp; [exact Hp|].
  cbn [run fold_left]. apply IH. now apply page_inv_step.
Qed.

(** C7. In every page reached by the player's actions after a load that
    derived [d] from a seed, the step counter is in 1..11 (it passes 10 only
    by the step into the final phase, and never passes 11); and, when the
    page markup starts with the final controls disabled, no final submission
    has succeeded as long as the counter is at most 10. *)
Theorem counter_bounded_and_final_gated
    (markup : bool) (seed : jsstring) (d : derived) (es : list event) :
  derive seed = Ok d ->
  let p := run (init_page markup d) es in
  1 <= current p <= 11
  /\ (in_final p <-> current p = 11)
  /\ (markup = true -> current p <= 10 -> ~ solved p).
Proof.
  intros Hd p.
  destruct (page_inv_run markup d es (init_page markup d)
              (derive_clues_length _ _ Hd) (page_inv_init markup d))
    as (_ & Hc & Hg).
  fold p in Hc, Hg. split; [exact Hc|]. split.
  - unfold in_final. change (Z.of_nat CLUE_COUNT) with 10. lia.
  - intros Hm Hl [Hs|Hs]; destruct (Hg Hm Hl) as (_ & _ & H3 & H4).
    + congruence.
    + tauto.
Qed.

Lemma counter_bounded_and_final_gated_witness :
  exists d,
    derive (js "test1") = Ok d
    /\ let p :=
         run (init_page true d)
           [TypeFinal (js "delta-foxtrot"); ClickFinal;
            TypeAnswer (js "delta"); ClickSubmit] in
       true = true
       /\ current p <= 10
       /\ 1 <= current p <= 11
       /\ ~ solved p.
Proof.
  eexists. split; [vm_compute; reflexivity|].
  match goal with
  | |- context [init_page true ?d] =>
      assert (Hd : derive (js "test1") = Ok d) by (vm_compute; reflexivity)
  end.
  intros p.
  assert (Hl : current p <= 10) by (vm_compute; discriminate).
  split; [reflexivity|]. split; [exact Hl|].
  destruct (counter_bounded_and_final_gated true (js "test1") _
              [TypeFinal (js "delta-foxtrot"); ClickFinal;
               TypeAnswer (js "delta"); ClickSubmit] Hd) as (Hc & _ & Hg).
  split; [exact Hc|]. exact (Hg eq_refl Hl).
Defined.

(** The gate of C7 is the [disabled] attribute, not the handler: were the
    markup to leave the final button enabled, the passphrase would be
    accepted at step 1. *)
Remark final_click_has_no_step_check :
  exists d,
    derive (js "test1") = Ok d
    /\ let p :=
         run (init_page false d)
           [TypeFinal
              (js "delta-foxtrot-bravo-charlie-golf-victor-steel-echo-tango-november");
            ClickFinal] in
       current p = 1 /\ finalMsg p = Some Congratulations.
Proof.
  eexists. split; [vm_compute; reflexivity|]. split; vm_compute; reflexivity.
Qed.

(** ** The generator *)

Section Generator.

Lemma ToUint32_range (z : Z) : 0 <= JS.ToUint32 z < 2 ^ 32.
Proof. unfold JS.ToUint32. apply Z.mod_pos_bound. lia. Qed.

Lemma ToUint32_small (z : Z) : 0 <= z < 2 ^ 32 -> JS.ToUint32 z = z.
Proof. intros H. unfold JS.ToUint32. now apply Z.mod_small. Qed.

Lemma ToInt32_mod (z : Z) : JS.ToInt32 z mod 2 ^ 32 = z mod 2 ^ 32.
Proof.
  unfold JS.ToInt32. destruct (z mod 2 ^ 32 <? 2 ^ 31).
  - apply Z.mod_mod. lia.
  - replace (z mod 2 ^ 32 - 2 ^ 32) with (z mod 2 ^ 32 + (-1) * 2 ^ 32) by lia.
    rewrite Z.mod_add by lia. apply Z.mod_mod. lia.
Qed.

Lemma mask32_mod (z : Z) : mask32 z = z mod 2 ^ 32.
Proof.
  unfold mask32. change 4294967295 with (Z.ones 32).
  apply Z.land_ones. lia.
Qed.

Lemma lxor_mod (a b : Z) :
  Z.lxor a b mod 2 ^ 32 = Z.lxor (a mod 2 ^ 32) (b mod 2 ^ 32).
Proof.
  apply Z.bits_inj'. intros n Hn. rewrite Z.lxor_spec.
  destruct (Z.lt_ge_cases n 32) as [Hlt|Hge].
  - now rewrite !Z.mod_pow2_bits_low, Z.lxor_spec by lia.
  - now rewrite !Z.mod_pow2_bits_high by lia.
Qed.

(** The signed exclusive-or of the language, read back as unsigned, is the
    masked exclusive-or of any operands congruent to its own. *)
Lemma ToUint32_xor (a b a' b' : Z) :
  a mod 2 ^ 32 = a' mod 2 ^ 32 -> b mod 2 ^ 32 = b' mod 2 ^ 32 ->
  JS.ToUint32 (JS.xor a b) = mask32 (Z.lxor a' b').
Proof.
  intros Ha Hb. rewrite mask32_mod. unfold JS.ToUint32, JS.xor.
  now rewrite !lxor_mod, !ToInt32_mod, Ha, Hb.
Qed.

Lemma shl_mod (a k : Z) :
  0 <= k < 32 -> JS.shl a k mod 2 ^ 32 = Z.shiftl a k mod 2 ^ 32.
Proof.
  intros Hk. unfold JS.shl. rewrite ToInt32_mod, (Z.mod_small k 32) by lia.
  rewrite !Z.shiftl_mul_pow2 by lia.
  rewrite <- Z.mul_mod_idemp_l, ToInt32_mod, Z.mul_mod_idemp_l by lia.
  reflexivity.
Qed.

Lemma ushr_small (a k : Z) :
  0 <= a < 2 ^ 32 -> 0 <= k < 32 -> JS.ushr a k = Z.shiftr a k.
Proof.
  intros Ha Hk. unfold JS.ushr.
  now rewrite ToUint32_small, (Z.mod_small k 32) by lia.
Qed.

Lemma mask32_range (z : Z) : 0 <= mask32 z < 2 ^ 32.
Proof. rewrite mask32_mod. apply Z.mod_pos_bound. lia. Qed.

(** The closure's three statements compute the masked steps. *)
Lemma xorshift_step_masked (x : Z) :
  0 <= x < 2 ^ 32 -> xorshift_step x = xorshift_masked x.
Proof.
  intros Hx. unfold xorshift_step, xorshift_masked.
  rewrite (ToUint32_xor x (JS.shl x 13) x (Z.shiftl x 13))
    by (try reflexivity; apply shl_mod; lia).
  set (x1 := mask32 _). assert (H1 : 0 <= x1 < 2 ^ 32) by apply mask32_range.
  rewrite (ToUint32_xor x1 (JS.ushr x1 17) x1 (Z.shiftr x1 17))
    by (try reflexivity; now rewrite ushr_small by lia).
  set (x2 := mask32 _).
  apply ToUint32_xor; [reflexivity|apply shl_mod; lia].
Qed.

Lemma xorshift_step_range (x : Z) : 0 <= xorshift_step x < 2 ^ 32.
Proof. unfold xorshift_step. apply ToUint32_range. Qed.

Lemma xorshift32_range (seed : Z) : 0 <= xorshift32 seed < 2 ^ 32.
Proof. apply ToUint32_range. Qed.

Lemma state_after_S (x : Z) (n : nat) :
  state_after x (S n) = state_after (xorshift_step x) n.
Proof. reflexivity. Qed.

Lemma rand_eq (x : Z) : rand x = (fst (rand x), xorshift_step x).
Proof. reflexivity. Qed.

Lemma state_after_range (x : Z) (n : nat) :
  0 <= x < 2 ^ 32 -> 0 <= state_after x n < 2 ^ 32.
Proof.
  revert x. induction n as [|n IH]; intros x Hx.
  - exact Hx.
  - rewrite state_after_S. apply IH, xorshift_step_range.
Qed.

(** A call returns a number of the closed interval [0, 1]; it returns 1
    exactly when the new state is 0xFFFFFFFF. *)
Lemma rand_closed_unit (x : Z) :
  (0 <= fst (rand x) <= 1)%Q
  /\ ((fst (rand x) < 1)%Q <-> xorshift_step x <> 4294967295)
  /\ ((fst (rand x) == 1)%Q <-> xorshift_step x = 4294967295).
Proof.
  pose proof (xorshift_step_range x) as H.
  unfold rand. cbn [fst]. unfold Qle, Qlt, Qeq. cbn [Qnum Qden].
  repeat split; intros; lia.
Qed.

(** [Math.floor(rand() * n)] on the exact value. *)
Lemma floor_rand_mul (x n : Z) :
  JS.floor (fst (rand x) * inject_Z n) = (xorshift_step x * n) / 4294967295.
Proof. reflexivity. Qed.

(** The index computed from a draw: inside [0, n], and equal to [n] only
    for the draw 1. *)
Lemma floor_rand_mul_range (x n : Z) :
  0 < n ->
  0 <= JS.floor (fst (rand x) * inject_Z n) <= n
  /\ (JS.floor (fst (rand x) * inject_Z n) = n
      <-> xorshift_step x = 4294967295).
Proof.
  intros Hn. rewrite floor_rand_mul.
  pose proof (xorshift_step_range x) as H.
  set (s := xorshift_step x) in *.
  assert (H0 : 0 <= s * n / 4294967295) by (apply Z.div_pos; nia).
  assert (H1 : s * n / 4294967295 <= n).
  { apply Z.div_le_upper_bound; nia. }
  split; [lia|]. split.
  - intros E.
    destruct (Z.eq_dec s 4294967295) as [|Hne]; [assumption|exfalso].
    assert (s * n / 4294967295 < n); [|lia].
    apply Z.div_lt_upper_bound; nia.
  - intros ->. rewrite Z.mul_comm. apply Z.div_mul. lia.
Qed.

End Generator.

(** ** Clue selection *)

Section Selection.

Lemma select_clues_spec (n : nat) (x : Z) (acc : list jsval) :
  select_clues n x acc = (acc ++ picks x n, state_after x n).
Proof.
  revert x acc. induction n as [|n IH]; intros x acc;
    cbn [select_clues picks state_after].
  - now rewrite app_nil_r.
  - rewrite (rand_eq x). cbv beta iota.
    rewrite IH, <- app_assoc. unfold pick. reflexivity.
Qed.

Lemma length_picks (x : Z) (n : nat) : length (picks x n) = n.
Proof.
  revert x. induction n as [|n IH]; intros x; cbn [picks length].
  - reflexivity.
  - now rewrite IH.
Qed.

(** The [k]-th clue is the word picked by the [k]-th draw. *)
Lemma lookup_picks (x : Z) (n k : nat) :
  (k < n)%nat -> picks x n !! k = Some (pick (state_after x k)).
Proof.
  revert x k. induction n as [|n IH]; intros x k Hk; [lia|].
  cbn [picks]. destruct k as [|k]; [reflexivity|].
  rewrite state_after_S. apply IH. lia.
Qed.

(** A draw below 1 picks a word of the list; the draw 1 picks nothing. *)
Lemma pick_spec (x : Z) :
  (xorshift_step x <> 4294967295 ->
     exists w, pick x = Some w /\ In w WORDS)
  /\ (xorshift_step x = 4294967295 -> pick x = None).
Proof.
  unfold pick.
  destruct (floor_rand_mul_range x (Z.of_nat (length WORDS)))
    as [Hr He]; [cbn; lia|].
  set (idx := JS.floor _) in *. split; intros Hx.
  - assert (Hlt : idx < Z.of_nat (length WORDS)) by (rewrite <- He in Hx; lia).
    unfold JS.index. replace (idx <? 0) with false by (symmetry; apply Z.ltb_ge; lia).
    destruct (lookup_lt_is_Some_2 WORDS (Z.to_nat idx)) as [w Hw]; [lia|].
    exists w. split; [exact Hw|].
    apply list_elem_of_In. eapply list_elem_of_lookup_2. exact Hw.
  - apply He in Hx. unfold JS.index. rewrite Hx. reflexivity.
Qed.

End Selection.

(** ** Placement *)

Section Placement.

Lemma length_write_run (i : nat) (sts : list style) (cells : list cell) :
  length (write_run i sts cells) = length cells.
Proof.
  revert i cells. induction sts as [|st sts IH]; intros i cells; cbn.
  - reflexivity.
  - now rewrite IH, length_insert.
Qed.

Lemma write_run_outside (i : nat) (sts : list style) (cells : list cell)
    (c : nat) :
  (c < i \/ i + length sts <= c)%nat ->
  write_run i sts cells !! c = cells !! c.
Proof.
  revert i cells. induction sts as [|st sts IH]; intros i cells Hc; cbn.
  - reflexivity.
  - rewrite IH by (cbn in Hc; lia).
    apply list_lookup_insert_ne. cbn in Hc. lia.
Qed.

Lemma write_run_inside (i : nat) (sts : list style) (cells : list cell)
    (c : nat) :
  (i <= c < i + length sts)%nat -> (i + length sts <= length cells)%nat ->
  write_run i sts cells !! c = Some (sts !! (c - i)%nat).
Proof.
  revert i cells. induction sts as [|st sts IH]; intros i cells Hc Hl;
    cbn in *; [lia|].
  destruct (decide (c = i)) as [->|Hne].
  - rewrite write_run_outside by lia.
    rewrite list_lookup_insert_eq by lia.
    now rewrite Nat.sub_diag.
  - rewrite IH by (rewrite ?length_insert; lia).
    replace (c - i)%nat with (S (c - S i)) by lia. reflexivity.
Qed.

Lemma length_char_styles (chars : jsstring) (n : nat) (j x : Z) :
  length (fst (char_styles chars n j x)) = n.
Proof.
  revert j x. induction n as [|n IH]; intros j x; cbn [char_styles].
  - reflexivity.
  - destruct (rand x) as [r x']. specialize (IH (j + 1) x').
    destruct (char_styles chars n (j + 1) x') as [rest x''].
    cbn [fst length] in *. now rewrite IH.
Qed.

(** The [k]-th style of a run carries the token of the character
    [j + k], between double quotes, and the flag [--s] set to 0. *)
Lemma char_styles_token (chars : jsstring) (n : nat) (j x : Z) (k : nat)
    (st : style) :
  fst (char_styles chars n j x) !! k = Some st ->
  prop_t st = dquote ++ charToken (JS.index chars (j + Z.of_nat k)) ++ dquote
  /\ prop_s st = js "0".
Proof.
  revert j x k. induction n as [|n IH]; intros j x k; cbn [char_styles].
  - discriminate.
  - destruct (rand x) as [r x']. specialize (IH (j + 1) x').
    destruct (char_styles chars n (j + 1) x') as [rest x''].
    cbn [fst] in *. destruct k as [|k].
    + intros [= <-]. cbn [prop_t prop_s cellStyle].
      now rewrite Z.add_0_r.
    + intros H. apply IH in H.
      now replace (j + Z.of_nat (S k)) with (j + 1 + Z.of_nat k) by lia.
Qed.

(** Inside the array the inner loop does not throw: it performs the
    writes of [char_styles]. *)
Lemma place_chars_spec (chars : jsstring) (start : Z) (n : nat) (j x : Z)
    (cells : list cell) :
  0 <= start + j ->
  start + j + Z.of_nat n <= Z.of_nat (length cells) ->
  place_chars chars start n j x cells
  = Ok (snd (char_styles chars n j x),
        write_run (Z.to_nat (start + j)) (fst (char_styles chars n j x)) cells).
Proof.
  revert j x cells. induction n as [|n IH]; intros j x cells H0 Hn;
    cbn [place_chars char_styles].
  - reflexivity.
  - unfold JS.index at 1.
    replace (start + j <? 0) with false by (symmetry; apply Z.ltb_ge; lia).
    destruct (lookup_lt_is_Some_2 cells (Z.to_nat (start + j))) as [old ->];
      [lia|].
    destruct (rand x) as [r x'].
    rewrite IH by (rewrite ?length_insert; lia).
    destruct (char_styles chars n (j + 1) x') as [rest x''].
    cbn [fst snd write_run].
    now replace (Z.to_nat (start + (j + 1))) with (S (Z.to_nat (start + j)))
      by lia.
Qed.

(** The start offset computed from a draw, for a word [w]. *)
Lemma start_range (w : jsstring) (r : Q) (x x1 : Z) :
  rand x = (r, x1) ->
  0 <= JS.floor (r * inject_Z (totalCells - Z.min (Z.of_nat (length w)) 6))
    <= totalCells - Z.min (Z.of_nat (length w)) 6.
Proof.
  intros Hr. replace r with (fst (rand x)) by now rewrite Hr.
  apply floor_rand_mul_range. unfold totalCells. lia.
Qed.

Lemma placements_ok (clues : list jsval) (x : Z) :
  Forall placement_ok (placements clues x).
Proof.
  revert x. induction clues as [|[w|] rest IH]; intros x;
    cbn [placements]; try constructor.
  - pose proof (start_range w) as Hs.
    destruct (rand x) as [r x1] eqn:Hr. specialize (Hs r x x1 Hr).
    pose proof (length_char_styles w
      (Z.to_nat (Z.min (Z.of_nat (length w)) 6)) 0 x1) as Hl.
    pose proof (char_styles_token w
      (Z.to_nat (Z.min (Z.of_nat (length w)) 6)) 0 x1) as Ht.
    destruct (char_styles w _ 0 x1) as [sts x2].
    constructor; [|apply IH].
    unfold placement_ok. cbn [fst snd len start word] in *.
    split; [reflexivity|]. split; [exact Hs|]. split; [exact Hl|].
    intros k st Hk. now apply Ht in Hk as [Hk _].
Qed.

Lemma length_apply_placements (ps : list (entry * list style))
    (cells : list cell) :
  length (apply_placements ps cells) = length cells.
Proof.
  revert cells. induction ps as [|p ps IH]; intros cells; cbn.
  - reflexivity.
  - unfold apply_placements in IH. now rewrite IH, length_write_run.
Qed.

(** The outer loop on an array of defined words: it pushes the entries of
    [placements] and performs their writes, and does not throw. *)
Lemma place_clues_spec (ws : list jsstring) (x : Z) (m : list entry)
    (cells : list cell) :
  Z.of_nat (length cells) = totalCells ->
  exists x',
    place_clues (List.map Some ws) x m cells
    = Ok (m ++ List.map fst (placements (List.map Some ws) x),
          apply_placements (placements (List.map Some ws) x) cells, x').
Proof.
  revert x m cells. induction ws as [|w ws IH]; intros x m cells Hc;
    cbn [List.map place_clues placements].
  - exists x. cbn. now rewrite app_nil_r.
  - pose proof (start_range w) as Hs.
    destruct (rand x) as [r x1] eqn:Hr. specialize (Hs r x x1 Hr).
    set (ln := Z.min (Z.of_nat (length w)) 6) in *.
    set (st := JS.floor _) in *.
    assert (Hln : 0 <= ln <= 6) by (subst ln; lia).
    rewrite place_chars_spec by lia.
    destruct (char_styles w (Z.to_nat ln) 0 x1) as [sts x2].
    cbn [fst snd].
    destruct (IH x2 (m ++ [mkEntry w st ln])
                (write_run (Z.to_nat (st + 0)) sts cells)) as [x' Hx'].
    { now rewrite length_write_run. }
    exists x'. rewrite Hx'.
    cbn [List.map fst apply_placements fold_left snd start].
    rewrite <- app_assoc, Z.add_0_r. reflexivity.
Qed.

(** The outer loop throws when it meets an [undefined] clue. *)
Lemma place_clues_undefined (ws : list jsstring) (rest : list jsval)
    (x : Z) (m : list entry) (cells : list cell) :
  Z.of_nat (length cells) = totalCells ->
  place_clues (List.map Some ws ++ None :: rest) x m cells = TypeError.
Proof.
  revert x m cells. induction ws as [|w ws IH]; intros x m cells Hc;
    cbn [List.map app place_clues].
  - reflexivity.
  - pose proof (start_range w) as Hs.
    destruct (rand x) as [r x1] eqn:Hr. specialize (Hs r x x1 Hr).
    set (ln := Z.min (Z.of_nat (length w)) 6) in *.
    set (st := JS.floor _) in *.
    assert (Hln : 0 <= ln <= 6) by (subst ln; lia).
    rewrite place_chars_spec by lia.
    apply IH. now rewrite length_write_run.
Qed.

End Placement.

(** ** The derivation as a whole *)

Section Derivation.

Lemma defined_prefix (cl : list jsval) :
  (exists ws, cl = List.map Some ws)
  \/ (exists ws rest, cl = List.map Some ws ++ None :: rest).
Proof.
  induction cl as [|[w|] cl IH].
  - left. now exists [].
  - destruct IH as [[ws ->]|(ws & rest & ->)].
    + left. now exists (w :: ws).
    + right. now exists (w :: ws), rest.
  - right. now exists [], cl.
Qed.

Lemma length_grid :
  Z.of_nat (length (replicate (Z.to_nat totalCells) (@None style)))
  = totalCells.
Proof. reflexivity. Qed.

(** The clues picked for a seed. *)
Lemma select_clues_seed (seed : jsstring) :
  select_clues CLUE_COUNT (xorshift32 (seedToInt seed)) []
  = (picks (xorshift32 (seedToInt seed)) CLUE_COUNT,
     state_after (xorshift32 (seedToInt seed)) CLUE_COUNT).
Proof. now rewrite select_clues_spec. Qed.

(** A derivation that completes has picked ten defined words, pushed the
    entries of [placed] and performed their writes on the empty grid. *)
Lemma derive_ok (seed : jsstring) (d : derived) :
  derive seed = Ok d ->
  clues d = picks (xorshift32 (seedToInt seed)) CLUE_COUNT
  /\ (exists ws, clues d = List.map Some ws)
  /\ mapping d = List.map fst (placed seed)
  /\ cells d
     = apply_placements (placed seed)
         (replicate (Z.to_nat totalCells) None).
Proof.
  unfold derive, placed. rewrite select_clues_seed.
  set (cl := picks _ _). set (x := state_after _ _).
  destruct (defined_prefix cl) as [[ws Hws]|(ws & rest & Hws)]; rewrite Hws.
  - destruct (place_clues_spec ws x [] _ length_grid) as [x' ->].
    intros [= <-]. cbn [clues mapping cells app].
    split; [reflexivity|]. split; [now exists ws|]. split; reflexivity.
  - now rewrite place_clues_undefined by apply length_grid.
Qed.

(** The derivation throws exactly when one of the ten draws of the
    selection is 1, which leaves an [undefined] clue. *)
Lemma derive_throws (seed : jsstring) :
  derive seed = TypeError
  <-> In None (picks (xorshift32 (seedToInt seed)) CLUE_COUNT).
Proof.
  unfold derive. rewrite select_clues_seed.
  set (cl := picks _ _). set (x := state_after _ _).
  destruct (defined_prefix cl) as [[ws Hws]|(ws & rest & Hws)]; rewrite Hws.
  - destruct (place_clues_spec ws x [] _ length_grid) as [x' ->].
    split; [discriminate|].
    intros H. apply in_map_iff in H as (w & Hw & _). discriminate.
  - rewrite place_clues_undefined by apply length_grid.
    split; [|reflexivity]. intros _. apply in_or_app. right. now left.
Qed.

End Derivation.

(** ** Overlapping words *)

Section Overlap.

Implicit Types (ps : list (entry * list style)) (cells : list cell).

(** Cells no write list covers are left as they were. *)
Lemma apply_placements_untouched ps cells (c : Z) :
  Forall placement_ok ps ->
  0 <= c ->
  (forall p, In p ps -> ~ covers (fst p) c) ->
  apply_placements ps cells !! Z.to_nat c = cells !! Z.to_nat c.
Proof.
  intros Hok Hc. revert cells.
  induction Hok as [|p ps (Hl & Hs & Hn & Ht) Hok IH]; intros cells Hcov.
  - reflexivity.
  - cbn [apply_placements fold_left].
    change (fold_left _ ps ?cs) with (apply_placements ps cs).
    rewrite IH by (intros q Hq; apply Hcov; now right).
    apply write_run_outside.
    assert (Hp : ~ covers (fst p) c) by (apply Hcov; now left).
    unfold covers in Hp. rewrite Hn. lia.
Qed.

(** Each cell holds the style written by the last write list that covers
    it. *)
Lemma apply_placements_last ps cells (i : nat) (e : entry)
    (sts : list style) (c : Z) :
  Forall placement_ok ps ->
  Z.of_nat (length cells) = totalCells ->
  ps !! i = Some (e, sts) ->
  covers e c ->
  (forall j p, (i < j)%nat -> ps !! j = Some p -> ~ covers (fst p) c) ->
  apply_placements ps cells !! Z.to_nat c
  = Some (sts !! Z.to_nat (c - start e)).
Proof.
  intros Hok. revert cells i.
  induction Hok as [|p ps (Hl & Hs & Hn & Ht) Hok IH]; intros cells i Hlen Hi Hc Hlater.
  - discriminate.
  - cbn [apply_placements fold_left].
    change (fold_left _ ps ?cs) with (apply_placements ps cs).
    destruct i as [|i].
    + injection Hi as ->. cbn [fst snd] in *. unfold covers in Hc.
      rewrite apply_placements_untouched; [|exact Hok|lia|].
      * rewrite write_run_inside by (rewrite ?Hn; lia).
        f_equal. f_equal. lia.
      * intros q Hq. apply list_elem_of_In, list_elem_of_lookup_1 in Hq
          as [j Hj].
        apply (Hlater (S j)); [lia|exact Hj].
    + apply (IH _ i); [now rewrite length_write_run|exact Hi|exact Hc|].
      intros j q Hj Hq. apply (Hlater (S j)); [lia|exact Hq].
Qed.

End Overlap.

(** * The derivation on given seeds *)




(** C2, at the seed string "z7li5e": its hash is 1584200935, and the first
    call of the generator made for it leaves 0xFFFFFFFF in the state, so the
    number returned is 0xFFFFFFFF / 0xFFFFFFFF = 1, which is not below 1;
    the binary64 quotient is 1 as well. *)
Theorem rand_returns_one :
  seedToInt (js "z7li5e") = 1584200935
  /\ rand (xorshift32 1584200935) = (4294967295 # 4294967295, 4294967295)
  /\ (nth_draw 1584200935 1 == 1)%Q
  /\ ~ (nth_draw 1584200935 1 < 1)%Q
  /\ rand_binary64 (xorshift32 1584200935) = 1%float.
Proof.
  split; [vm_compute; reflexivity|]. split; [vm_compute; reflexivity|].
  split; [vm_compute; reflexivity|].
  split; [vm_compute; discriminate|]. vm_compute. reflexivity.
Qed.

(** C3, at the seed string "z7li5e": the selection makes ten entries, but
    the first draw is 1, the index computed is 35 = WORDS.length, and the
    first clue is [undefined], not a word of the list; the placement then
    throws on it. *)
Theorem clue_undefined_for_seed :
  let cl :=
    fst (select_clues CLUE_COUNT (xorshift32 (seedToInt (js "z7li5e"))) []) in
  length cl = 10%nat
  /\ JS.floor (nth_draw (seedToInt (js "z7li5e")) 1
               * inject_Z (Z.of_nat (length WORDS))) = 35
  /\ cl !! 0%nat = Some None
  /\ derive (js "z7li5e") = TypeError.
Proof.
  cbv zeta. split; [vm_compute; reflexivity|].
  split; [vm_compute; reflexivity|]. split; vm_compute; reflexivity.
Qed.

(** C4, at the seed string "4w6fpv" (a seed the page can generate by
    itself): the draw for the start offset of the second word, MIKE, is 1,
    so its start offset is 28 = 32 - 4, outside the half-open range
    [0, 32 - len). *)
Theorem start_reaches_upper_bound :
  exists d,
    derive (js "4w6fpv") = Ok d
    /\ mapping d !! 1%nat = Some (mkEntry (js "MIKE") 28 4)
    /\ 28 = totalCells - 4
    /\ ~ (28 < totalCells - 4).
Proof.
  eexists. split; [vm_compute; reflexivity|].
  split; [vm_compute; reflexivity|]. split; [reflexivity|].
  unfold totalCells. lia.
Qed.

(** ** Overlaps in the grid *)

(** C10 as stated fails where three words share a cell.  For the seed
    "test1" the words of index 2 (BRAVO, cells 7..11) and 5 (VICTOR, cells
    10..15) share the cell 10; VICTOR, the later of the two, wrote the token
    V with the color #4e1966 there, but the cell ends with the token S and
    the color #a6f28b, written by the word of index 6 (STEEL, cells
    10..14). *)
Lemma shared_cell_holds_third_word :
  exists d sts2 sts5,
    derive (js "test1") = Ok d
    /\ placed (js "test1") !! 2%nat = Some (mkEntry (js "BRAVO") 7 5, sts2)
    /\ placed (js "test1") !! 5%nat = Some (mkEntry (js "VICTOR") 10 6, sts5)
    /\ covers (mkEntry (js "BRAVO") 7 5) 10
    /\ covers (mkEntry (js "VICTOR") 10 6) 10
    /\ sts5 !! 0%nat = Some (cellStyle (js "V") (js "#4e1966"))
    /\ cells d !! 10%nat = Some (Some (cellStyle (js "S") (js "#a6f28b")))
    /\ prop_t (cellStyle (js "S") (js "#a6f28b"))
       <> prop_t (cellStyle (js "V") (js "#4e1966"))
    /\ prop_c (cellStyle (js "S") (js "#a6f28b"))
       <> prop_c (cellStyle (js "V") (js "#4e1966")).
Proof.
  eexists _, _, _.
  split; [vm_compute; reflexivity|]. split; [vm_compute; reflexivity|].
  split; [vm_compute; reflexivity|].
  split; [unfold covers; cbn [start len]; lia|].
  split; [unfold covers; cbn [start len]; lia|].
  split; [vm_compute; reflexivity|]. split; [vm_compute; reflexivity|].
  split; vm_compute; discriminate.
Qed.

(** C10, amended.  The placement does not prevent overlaps: for the seed
    "test1" the words of index 0 and 2 share the cell 7.  And for every seed
    whose derivation completes, the mapping lists the entries of the write
    lists in order, and every cell covered by some word holds the style
    (token and color) written by the last word, in selection order, that
    covers it; the token is the one of that word's character for the cell.
    So a cell shared by two words holds the later word's token and color
    unless a still later word covers it too, and what earlier words wrote
    there is lost. *)
Theorem last_write_wins :
  (exists d ei ej c,
     derive (js "test1") = Ok d
     /\ mapping d !! 0%nat = Some ei /\ mapping d !! 2%nat = Some ej
     /\ covers ei c /\ covers ej c)
  /\ (forall seed d, derive seed = Ok d ->
        mapping d = List.map fst (placed seed)
        /\ (forall (i : nat) (e : entry) (sts : list style) (c : Z),
              placed seed !! i = Some (e, sts) ->
              covers e c ->
              (forall (j : nat) (p : entry * list style),
                 (i < j)%nat -> placed seed !! j = Some p ->
                 ~ covers (fst p) c) ->
              exists st,
                sts !! Z.to_nat (c - start e) = Some st
                /\ cells d !! Z.to_nat c = Some (Some st)
                /\ prop_t st
                   = dquote ++ charToken (JS.index (word e) (c - start e))
                       ++ dquote)).
Proof.
  split.
  - eexists _, _, _, 7.
    split; [vm_compute; reflexivity|]. split; [vm_compute; reflexivity|].
    split; [vm_compute; reflexivity|].
    split; unfold covers; cbn [start len]; lia.
  - intros seed d Hd.
    destruct (derive_ok seed d Hd) as (_ & _ & Hm & Hc).
    split; [exact Hm|]. intros i e sts c Hi Hcov Hlater.
    assert (Hok : Forall placement_ok (placed seed)).
    { unfold placed. destruct (select_clues _ _ _). apply placements_ok. }
    pose proof (proj1 (Forall_lookup _ _) Hok i (e, sts) Hi)
      as (_ & Hs & Hn & Ht).
    cbn [fst snd] in Hs, Hn, Ht. pose proof Hcov as Hcov'.
    unfold covers in Hcov'.
    destruct (lookup_lt_is_Some_2 sts (Z.to_nat (c - start e))) as [st Hst];
      [lia|].
    exists st. split; [exact Hst|]. split.
    + rewrite Hc, <- Hst.
      exact (apply_placements_last (placed seed) _ i e sts c Hok length_grid
               Hi Hcov Hlater).
    + rewrite (Ht _ _ Hst). now rewrite Z2Nat.id by lia.
Qed.

Lemma last_write_wins_witness :
  exists d,
    derive (js "test1") = Ok d
    /\ placed (js "test1") !! 6%nat
       = Some (mkEntry (js "STEEL") 10 5,
               List.map (fun tc => cellStyle (js (fst tc)) (js (snd tc)))
                 [("S", "#a6f28b"); ("T", "#06c470"); ("E", "#90c29b");
                  ("E", "#aa9564"); ("L", "#c08164")]%string)
    /\ covers (mkEntry (js "STEEL") 10 5) 10
    /\ cells d !! 10%nat = Some (Some (cellStyle (js "S") (js "#a6f28b"))).
Proof.
  assert (Hd : exists d, derive (js "test1") = Ok d)
    by (eexists; vm_compute; reflexivity).
  destruct Hd as [d Hd]. exists d. split; [exact Hd|].
  assert (Hp : placed (js "test1") !! 6%nat
       = Some (mkEntry (js "STEEL") 10 5,
               List.map (fun tc => cellStyle (js (fst tc)) (js (snd tc)))
                 [("S", "#a6f28b"); ("T", "#06c470"); ("E", "#90c29b");
                  ("E", "#aa9564"); ("L", "#c08164")]%string))
    by (vm_compute; reflexivity).
  split; [exact Hp|].
  assert (Hcov : covers (mkEntry (js "STEEL") 10 5) 10)
    by (unfold covers; cbn [start len]; lia).
  split; [exact Hcov|].
  destruct last_write_wins as [_ H].
  destruct (H (js "test1") d Hd) as [_ Hlast].
  destruct (Hlast 6%nat _ _ 10 Hp Hcov) as (st & Hst & Hcell & _).
  - intros j p Hj Hlk.
    assert (Hj' : j = 7%nat \/ j = 8%nat \/ j = 9%nat \/ (10 <= j)%nat) by lia.
    destruct Hj' as [->|[->|[->|Hge]]].
    + vm_compute in Hlk. injection Hlk as <-.
      unfold covers; cbn [fst start len]; lia.
    + vm_compute in Hlk. injection Hlk as <-.
      unfold covers; cbn [fst start len]; lia.
    + vm_compute in Hlk. injection Hlk as <-.
      unfold covers; cbn [fst start len]; lia.
    + rewrite (lookup_ge_None_2 (placed (js "test1")) j) in Hlk;
        [discriminate|].
      replace (length (placed (js "test1"))) with 10%nat
        by (vm_compute; reflexivity).
      exact Hge.
  - change (Z.to_nat 10) with 10%nat in Hcell. rewrite Hcell.
    vm_compute in Hst. now injection Hst as <-.
Defined.

(** * Further properties of the derivation *)

(** Every call of the generator made for a 32-bit seed applies the three
    masked xorshift steps to the state and returns the new state divided by
    0xFFFFFFFF; the number returned is in the closed interval [0, 1], and it
    is below 1 exactly when the new state is not 0xFFFFFFFF. *)
Theorem rand_spec (seed : Z) (n : nat) :
  let x := state_after (xorshift32 seed) n in
  rand x = (xorshift_masked x # 4294967295, xorshift_masked x)
  /\ (0 <= fst (rand x) <= 1)%Q
  /\ ((fst (rand x) < 1)%Q <-> xorshift_masked x <> 4294967295).
Proof.
  intros x.
  assert (Hx : 0 <= x < 2 ^ 32)
    by (apply state_after_range, xorshift32_range).
  destruct (rand_closed_unit x) as (Hr & Hlt & _).
  rewrite <- (xorshift_step_masked x Hx).
  split; [reflexivity|]. split; [exact Hr|exact Hlt].
Qed.

(** The selection makes exactly ten entries from ten draws, in order: the
    entry of index [k] is [WORDS[floor(r * WORDS.length)]] for the draw [r]
    of the call [k + 1]; it is a word of the list when that draw is below 1
    and [undefined] when the draw is 1. *)
Theorem selection_spec (seed : jsstring) :
  let x0 := xorshift32 (seedToInt seed) in
  let sel := select_clues CLUE_COUNT x0 [] in
  length (fst sel) = 10%nat
  /\ snd sel = state_after x0 10
  /\ (forall k : nat, (k < 10)%nat ->
        fst sel !! k
        = Some (JS.index WORDS
                  (JS.floor (nth_draw (seedToInt seed) (S k)
                             * inject_Z (Z.of_nat (length WORDS)))))
        /\ ((nth_draw (seedToInt seed) (S k) < 1)%Q ->
              exists w, fst sel !! k = Some (Some w) /\ In w WORDS)
        /\ ((nth_draw (seedToInt seed) (S k) == 1)%Q ->
              fst sel !! k = Some None)).
Proof.
  intros x0 sel. subst sel. rewrite select_clues_spec. cbn [fst snd app].
  split; [apply length_picks|]. split; [reflexivity|].
  intros k Hk. rewrite lookup_picks by exact Hk.
  unfold nth_draw. fold x0.
  destruct (rand_closed_unit (state_after x0 k)) as (_ & Hlt & Heq).
  destruct (pick_spec (state_after x0 k)) as [Hin Hout].
  split; [reflexivity|]. split.
  - intros H. apply Hlt, Hin in H as (w & Hw & HW).
    exists w. now rewrite Hw.
  - intros H. apply Heq, Hout in H. now rewrite H.
Qed.

(** Every entry of the mapping of a completed derivation has
    [len = min(word length, 6)], hence at most 6, and a start offset in the
    closed range [0, 32 - len], so that its cells [start .. start + len - 1]
    are cells of the grid. *)
Theorem placement_in_grid (seed : jsstring) (d : derived) (e : entry) :
  derive seed = Ok d ->
  In e (mapping d) ->
  len e = Z.min (Z.of_nat (length (word e))) 6
  /\ len e <= 6
  /\ 0 <= start e <= totalCells - len e
  /\ start e + len e <= totalCells.
Proof.
  intros Hd He.
  destruct (derive_ok seed d Hd) as (_ & _ & Hm & _).
  rewrite Hm in He. apply in_map_iff in He as (p & <- & Hp).
  assert (Hok : Forall placement_ok (placed seed)).
  { unfold placed. destruct (select_clues _ _ _). apply placements_ok. }
  rewrite Forall_forall in Hok.
  destruct (Hok p) as (Hl & Hs & _); [now apply list_elem_of_In|].
  repeat split; lia.
Qed.

Lemma placement_in_grid_witness :
  exists d,
    derive (js "4w6fpv") = Ok d
    /\ In (mkEntry (js "MIKE") 28 4) (mapping d)
    /\ start (mkEntry (js "MIKE") 28 4) + len (mkEntry (js "MIKE") 28 4)
       <= totalCells.
Proof.
  assert (Hd : exists d, derive (js "4w6fpv") = Ok d
                         /\ In (mkEntry (js "MIKE") 28 4) (mapping d)).
  { eexists. split; [vm_compute; reflexivity|]. right. left. reflexivity. }
  destruct Hd as (d & Hd & Hin). exists d.
  split; [exact Hd|]. split; [exact Hin|].
  now destruct (placement_in_grid (js "4w6fpv") d _ Hd Hin) as (_ & _ & _ & H).
Defined.

(** * The hash *)

Section Hash.

Lemma mod_eq_decompose (a b : Z) :
  a mod 2 ^ 32 = b mod 2 ^ 32 -> exists q, a = b + q * 2 ^ 32.
Proof.
  intros H. exists (a / 2 ^ 32 - b / 2 ^ 32).
  pose proof (Z.div_mod a (2 ^ 32)) as Ha.
  pose proof (Z.div_mod b (2 ^ 32)) as Hb. lia.
Qed.

Lemma shl_decompose (m k : Z) :
  0 <= k < 32 -> exists q, JS.shl m k = m * 2 ^ k + q * 2 ^ 32.
Proof.
  intros Hk. apply mod_eq_decompose.
  now rewrite shl_mod, Z.shiftl_mul_pow2 by lia.
Qed.

Lemma lxor_range (a b : Z) :
  0 <= a < 2 ^ 32 -> 0 <= b < 2 ^ 32 -> 0 <= Z.lxor a b < 2 ^ 32.
Proof.
  intros Ha Hb.
  rewrite <- (Z.mod_small a (2 ^ 32)), <- (Z.mod_small b (2 ^ 32)) by lia.
  rewrite <- lxor_mod. apply Z.mod_pos_bound. lia.
Qed.

(** The loop body of [seedToInt] is the FNV-1a step: the sum of shifts is
    the multiplication by the FNV prime, modulo 2^32. *)
Lemma seedToInt_step_fnv (n c : Z) :
  0 <= n < 2 ^ 32 -> 0 <= c < 2 ^ 32 ->
  seedToInt_step n c = fnv1a_step n c.
Proof.
  intros Hn Hc. unfold seedToInt_step, fnv1a_step, FNV_prime.
  set (m := JS.xor n c).
  assert (Hm : m mod 2 ^ 32 = Z.lxor n c).
  { subst m. unfold JS.xor.
    rewrite lxor_mod, !ToInt32_mod, <- lxor_mod.
    apply Z.mod_small, lxor_range; assumption. }
  destruct (shl_decompose m 1) as [q1 H1]; [lia|].
  destruct (shl_decompose m 4) as [q4 H4]; [lia|].
  destruct (shl_decompose m 7) as [q7 H7]; [lia|].
  destruct (shl_decompose m 8) as [q8 H8]; [lia|].
  destruct (shl_decompose m 24) as [q24 H24]; [lia|].
  rewrite H1, H4, H7, H8, H24. unfold JS.ToUint32.
  replace (m + (m * 2 ^ 1 + q1 * 2 ^ 32 + (m * 2 ^ 4 + q4 * 2 ^ 32)
                + (m * 2 ^ 7 + q7 * 2 ^ 32) + (m * 2 ^ 8 + q8 * 2 ^ 32)
                + (m * 2 ^ 24 + q24 * 2 ^ 32)))
    with (m * 16777619 + (q1 + q4 + q7 + q8 + q24) * 2 ^ 32) by lia.
  rewrite Z.mod_add by lia.
  now rewrite <- Z.mul_mod_idemp_l, Hm by lia.
Qed.

Lemma fnv1a_step_range (n c : Z) : 0 <= fnv1a_step n c < 2 ^ 32.
Proof. unfold fnv1a_step. apply Z.mod_pos_bound. lia. Qed.

Lemma fold_seedToInt_step_fnv (str : jsstring) (n : Z) :
  0 <= n < 2 ^ 32 -> Forall code_unit str ->
  fold_left seedToInt_step str n = fold_left fnv1a_step str n
  /\ 0 <= fold_left fnv1a_step str n < 2 ^ 32.
Proof.
  intros Hn Hs. revert n Hn.
  induction Hs as [|c str Hc Hs IH]; intros n Hn; cbn [fold_left].
  - split; [reflexivity|exact Hn].
  - rewrite seedToInt_step_fnv by (unfold code_unit in Hc; lia).
    apply IH, fnv1a_step_range.
Qed.

Lemma seedToInt_fold (str : jsstring) :
  Forall code_unit str -> seedToInt str = fold_left fnv1a_step str 2166136261.
Proof.
  intros Hs. unfold seedToInt.
  change (JS.ToUint32 2166136261) with 2166136261.
  destruct (fold_seedToInt_step_fnv str 2166136261) as [He Hr];
    [lia|exact Hs|].
  now rewrite He, ToUint32_small by exact Hr.
Qed.

End Hash.

(** On every string of code units [seedToInt] computes the 32-bit FNV-1a
    hash: offset basis 2166136261, and per unit an exclusive-or followed by
    the multiplication by 16777619 modulo 2^32; the result is a uint32. *)
Theorem seedToInt_is_fnv1a (str : jsstring) :
  Forall code_unit str ->
  seedToInt str = fnv1a str /\ 0 <= seedToInt str < 2 ^ 32.
Proof.
  intros Hs. unfold seedToInt, fnv1a.
  change (JS.ToUint32 2166136261) with 2166136261.
  destruct (fold_seedToInt_step_fnv str 2166136261) as [He Hr];
    [lia|exact Hs|].
  rewrite He, ToUint32_small by exact Hr. split; [reflexivity|exact Hr].
Qed.

Lemma seedToInt_is_fnv1a_witness :
  Forall code_unit (js "test1")
  /\ seedToInt (js "test1") = fnv1a (js "test1").
Proof.
  assert (H : Forall code_unit (js "test1")).
  { repeat constructor; unfold code_unit; cbn; lia. }
  split; [exact H|]. exact (proj1 (seedToInt_is_fnv1a (js "test1") H)).
Defined.

Section HashInjective.

Lemma fnv_prime_invertible (a b : Z) :
  0 <= a < 2 ^ 32 -> 0 <= b < 2 ^ 32 ->
  (a * FNV_prime) mod 2 ^ 32 = (b * FNV_prime) mod 2 ^ 32 -> a = b.
Proof.
  intros Ha Hb H.
  assert (Hinv : forall x, 0 <= x < 2 ^ 32 ->
            ((x * FNV_prime) mod 2 ^ 32 * 899433627) mod 2 ^ 32 = x).
  { intros x Hx. rewrite Z.mul_mod_idemp_l by lia.
    rewrite <- Z.mul_assoc, <- Z.mul_mod_idemp_r by lia.
    change ((FNV_prime * 899433627) mod 2 ^ 32) with 1.
    rewrite Z.mul_1_r. now apply Z.mod_small. }
  rewrite <- (Hinv a Ha), <- (Hinv b Hb). now rewrite H.
Qed.

Lemma lxor_cancel_r (a b c : Z) : Z.lxor a c = Z.lxor b c -> a = b.
Proof.
  intros H. apply (f_equal (fun z => Z.lxor z c)) in H.
  now rewrite !Z.lxor_assoc, !Z.lxor_nilpotent, !Z.lxor_0_r in H.
Qed.

Lemma lxor_cancel_l (a b c : Z) : Z.lxor c a = Z.lxor c b -> a = b.
Proof. rewrite !(Z.lxor_comm c). apply lxor_cancel_r. Qed.

Lemma fnv1a_step_inj_state (n n' c : Z) :
  0 <= n < 2 ^ 32 -> 0 <= n' < 2 ^ 32 -> 0 <= c < 2 ^ 32 ->
  fnv1a_step n c = fnv1a_step n' c -> n = n'.
Proof.
  intros Hn Hn' Hc H. unfold fnv1a_step in H.
  apply fnv_prime_invertible in H; try (apply lxor_range; assumption).
  now apply lxor_cancel_r in H.
Qed.

Lemma fnv1a_step_inj_unit (n c c' : Z) :
  0 <= n < 2 ^ 32 -> 0 <= c < 2 ^ 32 -> 0 <= c' < 2 ^ 32 ->
  fnv1a_step n c = fnv1a_step n c' -> c = c'.
Proof.
  intros Hn Hc Hc' H. unfold fnv1a_step in H.
  apply fnv_prime_invertible in H; try (apply lxor_range; assumption).
  now apply lxor_cancel_l in H.
Qed.

Lemma fold_fnv1a_inj (str : jsstring) (n n' : Z) :
  Forall code_unit str ->
  0 <= n < 2 ^ 32 -> 0 <= n' < 2 ^ 32 ->
  fold_left fnv1a_step str n = fold_left fnv1a_step str n' -> n = n'.
Proof.
  intros Hs. revert n n'.
  induction Hs as [|c str Hc Hs IH]; intros n n' Hn Hn' H; cbn [fold_left] in H.
  - exact H.
  - apply IH in H; try apply fnv1a_step_range.
    apply (fnv1a_step_inj_state n n' c); try assumption.
    unfold code_unit in Hc. lia.
Qed.

End HashInjective.

(** Two strings of code units that differ in exactly one position have
    different hashes. *)
Theorem seedToInt_one_unit_apart (pre suf : jsstring) (c c' : Z) :
  Forall code_unit pre -> Forall code_unit suf ->
  code_unit c -> code_unit c' -> c <> c' ->
  seedToInt (pre ++ c :: suf) <> seedToInt (pre ++ c' :: suf).
Proof.
  intros Hpre Hsuf Hc Hc' Hne.
  rewrite !seedToInt_fold
    by (apply Forall_app; split; [assumption|now constructor]).
  rewrite !fold_left_app. cbn [fold_left].
  destruct (fold_seedToInt_step_fnv pre 2166136261) as [_ Hr];
    [lia|exact Hpre|].
  set (n := fold_left fnv1a_step pre 2166136261) in *.
  intros H. apply fold_fnv1a_inj in H;
    try apply fnv1a_step_range; try assumption.
  apply fnv1a_step_inj_unit in H; unfold code_unit in *; try lia.
Qed.

Lemma seedToInt_one_unit_apart_witness :
  Forall code_unit (js "te") /\ Forall code_unit (js "t1")
  /\ code_unit 115 /\ code_unit 120 /\ 115 <> 120
  /\ seedToInt (js "test1") <> seedToInt (js "text1").
Proof.
  assert (H1 : Forall code_unit (js "te"))
    by (repeat constructor; unfold code_unit; cbn; lia).
  assert (H2 : Forall code_unit (js "t1"))
    by (repeat constructor; unfold code_unit; cbn; lia).
  assert (H3 : code_unit 115) by (unfold code_unit; lia).
  assert (H4 : code_unit 120) by (unfold code_unit; lia).
  assert (H5 : 115 <> 120) by lia.
  repeat (split; [assumption|]).
  exact (seedToInt_one_unit_apart (js "te") (js "t1") 115 120 H1 H2 H3 H4 H5).
Defined.

(** * The zero state of the generator *)

Section ZeroState.

Lemma odd_multiple_zero (x a ainv : Z) :
  0 <= x < 2 ^ 32 ->
  (a * ainv) mod 2 ^ 32 = 1 ->
  (x * a) mod 2 ^ 32 = 0 -> x = 0.
Proof.
  intros Hx Hinv H.
  rewrite <- (Z.mod_small x (2 ^ 32)) by lia.
  rewrite <- (Z.mul_1_r x), <- Hinv, Z.mul_mod_idemp_r by lia.
  rewrite Z.mul_assoc, <- Z.mul_mod_idemp_l, H by lia. reflexivity.
Qed.

(** [x ^ (x << k)], masked, is zero only for [x = 0]. *)
Lemma xor_shl_zero (x k ainv : Z) :
  0 <= x < 2 ^ 32 -> 0 < k ->
  ((2 ^ k - 1) * ainv) mod 2 ^ 32 = 1 ->
  mask32 (Z.lxor x (Z.shiftl x k)) = 0 -> x = 0.
Proof.
  intros Hx Hk Hinv H. rewrite mask32_mod, lxor_mod in H.
  apply Z.lxor_eq in H. rewrite Z.shiftl_mul_pow2 in H by lia.
  apply (odd_multiple_zero x (2 ^ k - 1) ainv Hx Hinv).
  rewrite Z.mul_sub_distr_l, Z.mul_1_r.
  rewrite Zminus_mod, <- H, Z.sub_diag. reflexivity.
Qed.

Lemma xor_shr_zero (x : Z) :
  0 <= x < 2 ^ 32 -> mask32 (Z.lxor x (Z.shiftr x 17)) = 0 -> x = 0.
Proof.
  intros Hx H. rewrite mask32_mod, lxor_mod in H.
  apply Z.lxor_eq in H. rewrite Z.shiftr_div_pow2 in H by lia.
  assert (Hq : 0 <= x / 2 ^ 17 < 2 ^ 32).
  { split; [apply Z.div_pos; lia|].
    apply Z.div_lt_upper_bound; lia. }
  rewrite !Z.mod_small in H by lia.
  destruct (Z.eq_dec x 0) as [|Hne]; [assumption|exfalso].
  assert (x / 2 ^ 17 < x) by (apply Z.div_lt; lia). lia.
Qed.

(** The state 0 is the only state whose successor is 0, and it is its own
    successor. *)
Lemma xorshift_step_zero (x : Z) :
  0 <= x < 2 ^ 32 -> (xorshift_step x = 0 <-> x = 0).
Proof.
  intros Hx. split; [|intros ->; reflexivity].
  rewrite (xorshift_step_masked x Hx). unfold xorshift_masked.
  set (x1 := mask32 (Z.lxor x (Z.shiftl x 13))).
  set (x2 := mask32 (Z.lxor x1 (Z.shiftr x1 17))).
  intros H3.
  assert (H2 : x2 = 0).
  { apply (xor_shl_zero x2 5 3186588639); try exact H3;
      [apply mask32_range|lia|reflexivity]. }
  assert (H1 : x1 = 0).
  { apply xor_shr_zero; [apply mask32_range|exact H2]. }
  apply (xor_shl_zero x 13 4227850239); try exact H1;
    [exact Hx|lia|reflexivity].
Qed.

Lemma state_after_zero (x : Z) (n : nat) :
  0 <= x < 2 ^ 32 -> (state_after x n = 0 <-> x = 0).
Proof.
  revert x. induction n as [|n IH]; intros x Hx.
  - reflexivity.
  - rewrite state_after_S, IH by apply xorshift_step_range.
    now apply xorshift_step_zero.
Qed.

End ZeroState.

(** The generator never returns 0 unless it was made for a seed that is 0
    as a uint32, and then it returns 0 at every call: a zero state is stuck,
    and no other state ever leads to it. *)
Theorem draw_zero_iff_seed_zero (seed : Z) (n : nat) :
  (0 < n)%nat ->
  ((nth_draw seed n == 0)%Q <-> xorshift32 seed = 0)
  /\ (xorshift32 seed <> 0 -> (0 < nth_draw seed n)%Q).
Proof.
  intros Hn. destruct n as [|k]; [lia|]. unfold nth_draw.
  pose proof (xorshift32_range seed) as Hr.
  pose proof (state_after_zero (xorshift32 seed) k Hr) as Hz.
  pose proof (state_after_range (xorshift32 seed) k Hr) as Hk.
  pose proof (xorshift_step_zero _ Hk) as Hz'.
  pose proof (xorshift_step_range (state_after (xorshift32 seed) k)) as Hs.
  rewrite (rand_eq (state_after (xorshift32 seed) k)). cbn [fst].
  set (s := xorshift_step (state_after (xorshift32 seed) k)) in *.
  assert (Hq : fst (rand (state_after (xorshift32 seed) k)) = s # 4294967295)
    by reflexivity.
  rewrite Hq. unfold Qeq, Qlt. cbn [Qnum Qden].
  split; [split|]; intros H.
  - apply Hz, Hz'. lia.
  - apply Hz, Hz' in H. lia.
  - assert (s <> 0) by (intros E; apply H, Hz, Hz', E). lia.
Qed.

Lemma draw_zero_iff_seed_zero_witness :
  (0 < 3)%nat /\ (nth_draw 0 3 == 0)%Q /\ (0 < nth_draw 1 3)%Q.
Proof.
  assert (H : (0 < 3)%nat) by lia.
  split; [exact H|].
  destruct (draw_zero_iff_seed_zero 0 3 H) as [[_ H0] _].
  destruct (draw_zero_iff_seed_zero 1 3 H) as [_ H1].
  split; [apply H0; reflexivity|apply H1; discriminate].
Defined.

(** * What the grid holds *)

Section Colors.

Lemma hexdigit_lower_hex (d : Z) :
  0 <= d < 16 -> lower_hex (JS.hexdigit d) = true.
Proof.
  intros Hd. unfold JS.hexdigit, lower_hex.
  destruct (d <? 10) eqn:E.
  - apply Z.ltb_lt in E. apply orb_true_iff. left.
    apply andb_true_iff. split; apply Z.leb_le; lia.
  - apply Z.ltb_ge in E. apply orb_true_iff. right.
    apply andb_true_iff. split; apply Z.leb_le; lia.
Qed.

Lemma toHex_digits (fuel : nat) (n : Z) (acc : jsstring) :
  forallb lower_hex acc = true ->
  forallb lower_hex (JS.toHex fuel n acc) = true.
Proof.
  revert n acc. induction fuel as [|f IH]; intros n acc Hacc; cbn [JS.toHex].
  - exact Hacc.
  - assert (Hd : forallb lower_hex (JS.hexdigit (n mod 16) :: acc) = true).
    { cbn [forallb]. rewrite Hacc, hexdigit_lower_hex; [reflexivity|].
      apply Z.mod_pos_bound. lia. }
    destruct (n / 16 =? 0); [exact Hd|]. now apply IH.
Qed.

Lemma toHex_length (fuel k : nat) (n : Z) (acc : jsstring) :
  (1 <= k <= fuel)%nat -> 0 <= n < 16 ^ Z.of_nat k ->
  (length acc < length (JS.toHex fuel n acc) <= k + length acc)%nat.
Proof.
  revert k n acc. induction fuel as [|f IH]; intros k n acc Hk Hn; [lia|].
  cbn [JS.toHex]. destruct (n / 16 =? 0) eqn:E.
  - cbn [length]. lia.
  - apply Z.eqb_neq in E.
    assert (Hk2 : (2 <= k)%nat).
    { destruct (decide (k = 1%nat)) as [->|]; [|lia].
      exfalso. apply E. apply Z.div_small. cbn in Hn. lia. }
    destruct (IH (k - 1)%nat (n / 16) (JS.hexdigit (n mod 16) :: acc))
      as [H1 H2]; [lia| |cbn [length] in *; lia].
    split; [apply Z.div_pos; lia|].
    apply Z.div_lt_upper_bound; [lia|].
    replace (16 * 16 ^ Z.of_nat (k - 1)) with (16 ^ Z.of_nat k); [lia|].
    replace (Z.of_nat k) with (Z.of_nat (k - 1) + 1) by lia.
    rewrite Z.pow_add_r by lia. lia.
Qed.

(** The color made from a draw of the generator is a six-digit CSS color. *)
Lemma colorCode_css (x : Z) : css_hex_color (colorCode (fst (rand x))).
Proof.
  unfold colorCode.
  destruct (floor_rand_mul_range x 16777215) as [Hr _]; [lia|].
  set (v := JS.floor _) in *.
  assert (Hu : JS.ushr v 0 = v).
  { unfold JS.ushr. change (0 mod 32) with 0.
    rewrite Z.shiftr_0_r. apply ToUint32_small. lia. }
  rewrite Hu. unfold JS.toString16, JS.padStart0.
  destruct (toHex_length 8 6 v []) as [H1 H2];
    [lia|change (16 ^ Z.of_nat 6) with 16777216; lia|].
  exists (replicate (6 - length (JS.toHex 8 v [])) 48 ++ JS.toHex 8 v []).
  split; [reflexivity|]. split.
  - rewrite length_app, length_replicate. cbn [length] in *. lia.
  - rewrite forallb_app, toHex_digits by reflexivity.
    rewrite andb_true_r. apply forallb_forall.
    intros c Hc. apply list_elem_of_In, elem_of_replicate in Hc as [-> _].
    reflexivity.
Qed.

End Colors.

Section Origins.

Implicit Types (ps : list (entry * list style)) (cells : list cell).

Lemma char_styles_from_loop (chars : jsstring) (n : nat) (j x : Z) :
  0 <= j -> j + Z.of_nat n <= Z.of_nat (length chars) -> j + Z.of_nat n <= 6 ->
  Forall (style_from_loop chars) (fst (char_styles chars n j x)).
Proof.
  revert j x. induction n as [|n IH]; intros j x Hj Hn H6; cbn [char_styles].
  - constructor.
  - rewrite (rand_eq x). cbv beta iota.
    specialize (IH (j + 1) (xorshift_step x)).
    destruct (char_styles chars n (j + 1) (xorshift_step x)) as [rest x''].
    cbn [fst] in *. constructor; [|apply IH; lia].
    exists j, x. repeat split; lia.
Qed.

(** The entries of the write lists carry the clues in order, and their
    styles are styles of the inner loop for that word. *)
Lemma placements_defined (ws : list jsstring) (x : Z) :
  List.map (fun p => word (fst p)) (placements (List.map Some ws) x) = ws
  /\ Forall (fun p => Forall (style_from_loop (word (fst p))) (snd p))
       (placements (List.map Some ws) x).
Proof.
  revert x. induction ws as [|w ws IH]; intros x; cbn [List.map placements].
  - split; constructor.
  - destruct (rand x) as [r x1].
    pose proof (char_styles_from_loop w
      (Z.to_nat (Z.min (Z.of_nat (length w)) 6)) 0 x1) as Hc.
    destruct (char_styles w _ 0 x1) as [sts x2].
    destruct (IH x2) as [Hw Hs]. cbn [List.map fst snd word].
    split; [now rewrite Hw|]. constructor; [|exact Hs].
    cbn [fst snd word]. apply Hc; lia.
Qed.

(** A style found in a cell after the writes was there before, or is the
    style a covering write list holds for that cell. *)
Lemma apply_placements_origin ps cells (c : nat) (st : style) :
  Forall placement_ok ps ->
  Z.of_nat (length cells) = totalCells ->
  apply_placements ps cells !! c = Some (Some st) ->
  cells !! c = Some (Some st)
  \/ exists p, In p ps /\ covers (fst p) (Z.of_nat c)
               /\ snd p !! Z.to_nat (Z.of_nat c - start (fst p)) = Some st.
Proof.
  intros Hok. revert cells.
  induction Hok as [|p ps (Hl & Hs & Hn & Ht) Hok IH]; intros cells Hlen H.
  - now left.
  - cbn [apply_placements fold_left] in H.
    change (fold_left _ ps ?cs) with (apply_placements ps cs) in H.
    apply IH in H; [|now rewrite length_write_run].
    destruct H as [H|(q & Hq & Hcov & Hst)].
    + destruct (decide (start (fst p) <= Z.of_nat c
                        < start (fst p) + len (fst p))) as [Hin|Hout].
      * right. exists p. split; [now left|]. split; [exact Hin|].
        rewrite write_run_inside in H by (rewrite ?Hn; unfold totalCells in *; lia).
        injection H as H. rewrite <- H. f_equal. lia.
      * left. rewrite write_run_outside in H by (rewrite Hn; lia). exact H.
    + right. exists q. split; [now right|]. split; assumption.
Qed.

Lemma covering_dec ps (c : Z) :
  {exists p, In p ps /\ covers (fst p) c}
  + {~ exists p, In p ps /\ covers (fst p) c}.
Proof.
  assert (Hdec : forall p : entry * list style,
            {covers (fst p) c} + {~ covers (fst p) c}).
  { intros p. unfold covers.
    destruct (decide (start (fst p) <= c < start (fst p) + len (fst p)));
      [now left|now right]. }
  destruct (List.Exists_dec (fun p => covers (fst p) c) ps Hdec) as [H|H].
  - left. now apply List.Exists_exists in H.
  - right. intros H'. apply H. now apply List.Exists_exists.
Qed.

(** Among the write lists that cover a cell there is a last one. *)
Lemma last_covering ps (c : Z) :
  (exists p, In p ps /\ covers (fst p) c) ->
  exists (i : nat) (p : entry * list style),
    ps !! i = Some p /\ covers (fst p) c
    /\ (forall (j : nat) (q : entry * list style),
          (i < j)%nat -> ps !! j = Some q -> ~ covers (fst q) c).
Proof.
  induction ps as [|p ps IH]; intros (q & Hq & Hc); [destruct Hq|].
  destruct (covering_dec ps c) as [Hex|Hno].
  - destruct (IH Hex) as (i & p' & Hi & Hp' & Hlast).
    exists (S i), p'. split; [exact Hi|]. split; [exact Hp'|].
    intros [|j] q' Hj Hq'; [lia|]. apply (Hlast j); [lia|exact Hq'].
  - exists 0%nat, p. destruct Hq as [->|Hq]; [|exfalso; apply Hno; eauto].
    split; [reflexivity|]. split; [exact Hc|].
    intros [|j] q' Hj Hq'; [lia|]. intros Hc'. apply Hno. exists q'.
    split; [|exact Hc']. apply list_elem_of_In.
    eapply list_elem_of_lookup_2. exact Hq'.
Qed.

End Origins.

Section Grid.

Lemma lookup_map {A B : Type} (f : A -> B) (l : list A) (i : nat) :
  List.map f l !! i = option_map f (l !! i).
Proof.
  revert i. induction l as [|a l IH]; intros [|i]; cbn; try reflexivity.
  apply IH.
Qed.

Lemma picks_elements (x : Z) (n : nat) (v : jsval) :
  In v (picks x n) -> v = None \/ exists w, v = Some w /\ In w WORDS.
Proof.
  revert x. induction n as [|n IH]; intros x; cbn [picks]; [intros []|].
  intros [<-|H]; [|now apply (IH (xorshift_step x))].
  destruct (pick_spec x) as [Hin Hout].
  destruct (Z.eq_dec (xorshift_step x) 4294967295) as [E|E].
  - left. now apply Hout.
  - right. now apply Hin.
Qed.

Lemma words_upper (w : jsstring) :
  In w WORDS -> forallb upper_letter w = true.
Proof.
  assert (H : forallb (forallb upper_letter) WORDS = true)
    by (vm_compute; reflexivity).
  rewrite forallb_forall in H. apply H.
Qed.

Lemma charToken_upper (c : Z) :
  upper_letter c = true -> charToken (Some c) = [c].
Proof.
  unfold upper_letter, charToken, JS.toUpperCase1. intros H.
  pose proof H as H'. apply andb_true_iff in H' as [H1 H2].
  apply Z.leb_le in H1, H2.
  replace (c <=? 122) with true by (symmetry; apply Z.leb_le; lia).
  replace (97 <=? c) with false by (symmetry; apply Z.leb_gt; lia).
  cbn [andb]. now rewrite H.
Qed.

(** The characters the inner loop reads from a word of the list are
    upper-case letters, and their tokens are the letters themselves. *)
Lemma word_char (w : jsstring) (j : Z) :
  In w WORDS -> 0 <= j < Z.of_nat (length w) ->
  exists ch, JS.index w j = Some ch /\ upper_letter ch = true
             /\ charToken (JS.index w j) = [ch].
Proof.
  intros Hw Hj. unfold JS.index.
  replace (j <? 0) with false by (symmetry; apply Z.ltb_ge; lia).
  destruct (lookup_lt_is_Some_2 w (Z.to_nat j)) as [ch Hch]; [lia|].
  exists ch. rewrite Hch. split; [reflexivity|].
  assert (Hu : upper_letter ch = true).
  { pose proof (words_upper w Hw) as H. rewrite forallb_forall in H.
    apply H, list_elem_of_In. eapply list_elem_of_lookup_2. exact Hch. }
  split; [exact Hu|now apply charToken_upper].
Qed.

Lemma placed_eq (seed : jsstring) :
  placed seed
  = placements (picks (xorshift32 (seedToInt seed)) CLUE_COUNT)
      (state_after (xorshift32 (seedToInt seed)) CLUE_COUNT).
Proof. unfold placed. now rewrite select_clues_seed. Qed.

Lemma placed_ok (seed : jsstring) : Forall placement_ok (placed seed).
Proof. rewrite placed_eq. apply placements_ok. Qed.

(** After a completed derivation: the ten clues are words of the list, the
    mapping carries them in order, and every style of the write lists comes
    from the inner loop for its word. *)
Lemma derive_words (seed : jsstring) (d : derived) :
  derive seed = Ok d ->
  exists ws,
    clues d = List.map Some ws
    /\ length ws = CLUE_COUNT
    /\ Forall (fun w => In w WORDS) ws
    /\ List.map word (mapping d) = ws
    /\ Forall (fun p => Forall (style_from_loop (word (fst p))) (snd p))
         (placed seed).
Proof.
  intros Hd. destruct (derive_ok seed d Hd) as (Hc & (ws & Hws) & Hm & _).
  exists ws. split; [exact Hws|].
  assert (Hlen : length ws = CLUE_COUNT).
  { rewrite <- (length_map Some), <- Hws, Hc. apply length_picks. }
  split; [exact Hlen|]. split.
  - apply List.Forall_forall. intros w Hw.
    assert (Hin : In (Some w) (picks (xorshift32 (seedToInt seed)) CLUE_COUNT)).
    { rewrite <- Hc, Hws. now apply in_map. }
    apply picks_elements in Hin as [Hn|(w' & [= ->] & Hw')];
      [discriminate|exact Hw'].
  - rewrite Hm, placed_eq, <- Hc, Hws.
    destruct (placements_defined ws
                (state_after (xorshift32 (seedToInt seed)) CLUE_COUNT))
      as [Hw Hs].
    split; [|exact Hs]. now rewrite List.map_map.
Qed.

Lemma derive_mapping_length (seed : jsstring) (d : derived) :
  derive seed = Ok d -> length (mapping d) = CLUE_COUNT.
Proof.
  intros Hd. destruct (derive_words seed d Hd) as (ws & _ & Hl & _ & Hm & _).
  now rewrite <- (length_map word), Hm.
Qed.

Lemma derive_cells_length (seed : jsstring) (d : derived) :
  derive seed = Ok d -> length (cells d) = Z.to_nat totalCells.
Proof.
  intros Hd. destruct (derive_ok seed d Hd) as (_ & _ & _ & Hc).
  now rewrite Hc, length_apply_placements, length_replicate.
Qed.

(** A cell that carries a style got it from a write list that covers it. *)
Lemma cell_origin (seed : jsstring) (d : derived) (c : nat) (st : style) :
  derive seed = Ok d ->
  cells d !! c = Some (Some st) ->
  exists p, In p (placed seed) /\ covers (fst p) (Z.of_nat c)
            /\ snd p !! Z.to_nat (Z.of_nat c - start (fst p)) = Some st.
Proof.
  intros Hd Hc. destruct (derive_ok seed d Hd) as (_ & _ & _ & Hcells).
  rewrite Hcells in Hc.
  apply apply_placements_origin in Hc as [Hc|Hc];
    [|exact Hc|apply placed_ok|apply length_grid].
  apply lookup_replicate in Hc as [Hc _]. discriminate.
Qed.

(** The cells of an entry that no later entry overlaps hold the styles of
    its own write list. *)
Lemma cell_of_last_entry (seed : jsstring) (d : derived) (i : nat)
    (e : entry) (sts : list style) (c : Z) :
  derive seed = Ok d ->
  placed seed !! i = Some (e, sts) ->
  covers e c ->
  (forall (j : nat) (p : entry * list style),
     (i < j)%nat -> placed seed !! j = Some p -> ~ covers (fst p) c) ->
  exists st, sts !! Z.to_nat (c - start e) = Some st
             /\ cells d !! Z.to_nat c = Some (Some st).
Proof.
  intros Hd Hi Hcov Hlater.
  destruct (derive_ok seed d Hd) as (_ & _ & _ & Hc).
  pose proof (proj1 (Forall_lookup _ _) (placed_ok seed) i (e, sts) Hi)
    as (_ & Hs & Hn & _).
  cbn [fst snd] in Hs, Hn. pose proof Hcov as Hcov'. unfold covers in Hcov'.
  destruct (lookup_lt_is_Some_2 sts (Z.to_nat (c - start e))) as [st Hst];
    [lia|].
  exists st. split; [exact Hst|]. rewrite Hc, <- Hst.
  exact (apply_placements_last (placed seed) _ i e sts c (placed_ok seed)
           length_grid Hi Hcov Hlater).
Qed.

(** The letters of an entry that no later entry overlaps can be read from
    its cells. *)
Lemma readable_entry (seed : jsstring) (d : derived) (i : nat) (e : entry)
    (k : Z) :
  derive seed = Ok d ->
  mapping d !! i = Some e ->
  (forall (j : nat) (e' : entry) (c : Z),
     (i < j)%nat -> mapping d !! j = Some e' -> covers e c -> ~ covers e' c) ->
  0 <= k < len e ->
  exists ch st,
    JS.index (word e) k = Some ch
    /\ cells d !! Z.to_nat (start e + k) = Some (Some st)
    /\ prop_t st = dquote ++ [ch] ++ dquote.
Proof.
  intros Hd Hi Hfree Hk.
  destruct (derive_ok seed d Hd) as (_ & _ & Hm & _).
  destruct (derive_words seed d Hd) as (ws & _ & _ & Hws & Hmw & _).
  assert (Hp : exists sts, placed seed !! i = Some (e, sts)).
  { rewrite Hm, lookup_map in Hi.
    destruct (placed seed !! i) as [[e' sts]|]; [|discriminate].
    injection Hi as <-. now exists sts. }
  destruct Hp as [sts Hp].
  pose proof (proj1 (Forall_lookup _ _) (placed_ok seed) i (e, sts) Hp)
    as (Hl & Hs & Hn & Ht).
  cbn [fst snd] in Hl, Hs, Hn, Ht.
  assert (Hcov : covers e (start e + k)) by (unfold covers; lia).
  destruct (cell_of_last_entry seed d i e sts (start e + k) Hd Hp Hcov)
    as (st & Hst & Hcell).
  { intros j p Hj Hpj. apply (Hfree j (fst p)); [exact Hj| |exact Hcov].
    rewrite Hm, lookup_map, Hpj. reflexivity. }
  replace (start e + k - start e) with k in Hst by lia.
  assert (Hw : In (word e) WORDS).
  { rewrite List.Forall_forall in Hws. apply Hws. rewrite <- Hmw.
    apply in_map, list_elem_of_In. eapply list_elem_of_lookup_2. exact Hi. }
  destruct (word_char (word e) k Hw) as (ch & Hch & _ & Htok); [lia|].
  exists ch, st. split; [exact Hch|]. split; [exact Hcell|].
  rewrite (Ht _ _ Hst), Z2Nat.id, Htok by lia. reflexivity.
Qed.

End Grid.

(** Every cell that carries properties after a completed derivation carries
    a six-digit CSS color, the gradient built from that color, the display
    flag [--s] set to 0, and as token one upper-case letter between double
    quotes: the placement never writes the tokens [.] or [-], and never
    reveals a cell. *)
Theorem cell_style_well_formed (seed : jsstring) (d : derived) (c : nat)
    (st : style) :
  derive seed = Ok d ->
  cells d !! c = Some (Some st) ->
  css_hex_color (prop_c st)
  /\ prop_background st
     = js "linear-gradient(90deg," ++ prop_c st ++ js " 0%, rgba(0,0,0,0) 100%)"
  /\ prop_s st = js "0"
  /\ (exists ch, upper_letter ch = true /\ prop_t st = dquote ++ [ch] ++ dquote).
Proof.
  intros Hd Hc.
  destruct (cell_origin seed d c st Hd Hc) as (p & Hp & _ & Hst).
  destruct (derive_words seed d Hd) as (ws & _ & _ & Hws & Hmw & Hsty).
  destruct (derive_ok seed d Hd) as (_ & _ & Hm & _).
  rewrite List.Forall_forall in Hsty. specialize (Hsty p Hp).
  rewrite List.Forall_forall in Hsty.
  destruct (Hsty st) as (j & x & Hj & _ & ->).
  { apply list_elem_of_In. eapply list_elem_of_lookup_2. exact Hst. }
  assert (Hw : In (word (fst p)) WORDS).
  { rewrite List.Forall_forall in Hws. apply Hws. rewrite <- Hmw, Hm, List.map_map.
    apply (in_map (fun q => word (fst q))), Hp. }
  destruct (word_char _ j Hw Hj) as (ch & _ & Hu & Htok).
  cbn [prop_c prop_background prop_s prop_t cellStyle].
  split; [apply colorCode_css|]. split; [reflexivity|].
  split; [reflexivity|]. exists ch. now rewrite Htok.
Qed.

Lemma cell_style_well_formed_witness :
  exists d st,
    derive (js "test1") = Ok d
    /\ cells d !! 10%nat = Some (Some st)
    /\ prop_s st = js "0"
    /\ css_hex_color (prop_c st).
Proof.
  assert (H : exists d st, derive (js "test1") = Ok d
                           /\ cells d !! 10%nat = Some (Some st)).
  { eexists _, _. split; vm_compute; reflexivity. }
  destruct H as (d & st & Hd & Hc). exists d, st.
  split; [exact Hd|]. split; [exact Hc|].
  destruct (cell_style_well_formed (js "test1") d 10 st Hd Hc)
    as (Hcol & _ & Hs & _).
  split; [exact Hs|exact Hcol].
Defined.

(** After a completed derivation the grid has its 32 cells, and a cell
    carries properties exactly when some entry of the mapping covers it:
    cells outside every word are left untouched. *)
Theorem cell_set_iff_covered (seed : jsstring) (d : derived) (c : nat) :
  derive seed = Ok d ->
  length (cells d) = 32%nat
  /\ ((exists st, cells d !! c = Some (Some st))
      <-> (exists e, In e (mapping d) /\ covers e (Z.of_nat c))).
Proof.
  intros Hd. split; [exact (derive_cells_length seed d Hd)|].
  destruct (derive_ok seed d Hd) as (_ & _ & Hm & _). split.
  - intros (st & Hst).
    destruct (cell_origin seed d c st Hd Hst) as (p & Hp & Hcov & _).
    exists (fst p). split; [|exact Hcov]. rewrite Hm. now apply in_map.
  - intros (e & He & Hcov). rewrite Hm in He.
    apply in_map_iff in He as (p & <- & Hp).
    destruct (last_covering (placed seed) (Z.of_nat c)) as (i & [e' sts] & Hi & Hc' & Hlast);
      [now exists p|].
    destruct (cell_of_last_entry seed d i e' sts (Z.of_nat c) Hd Hi Hc' Hlast)
      as (st & _ & Hcell).
    exists st. now rewrite Nat2Z.id in Hcell.
Qed.

Lemma cell_set_iff_covered_witness :
  exists d,
    derive (js "test1") = Ok d
    /\ length (cells d) = 32%nat
    /\ ~ (exists e, In e (mapping d) /\ covers e (Z.of_nat 0)).
Proof.
  assert (H : exists d, derive (js "test1") = Ok d /\ cells d !! 0%nat = Some None).
  { eexists. split; vm_compute; reflexivity. }
  destruct H as (d & Hd & Hc). exists d. split; [exact Hd|].
  destruct (cell_set_iff_covered (js "test1") d 0 Hd) as [Hl [_ Hcov]].
  split; [exact Hl|]. intros He. destruct (Hcov He) as [st Hst].
  rewrite Hc in Hst. discriminate.
Defined.

Lemma mapping_entry_ok (seed : jsstring) (d : derived) (i : nat) (e : entry) :
  derive seed = Ok d ->
  mapping d !! i = Some e ->
  len e = Z.min (Z.of_nat (length (word e))) 6
  /\ 0 <= start e <= totalCells - len e.
Proof.
  intros Hd Hi. destruct (derive_ok seed d Hd) as (_ & _ & Hm & _).
  rewrite Hm, lookup_map in Hi.
  destruct (placed seed !! i) as [[e' sts]|] eqn:Hp; [|discriminate].
  injection Hi as <-.
  pose proof (proj1 (Forall_lookup _ _) (placed_ok seed) i (e', sts) Hp)
    as (Hl & Hs & _).
  split; [exact Hl|exact Hs].
Qed.

(** The letters of a word that no later word overlaps can be read from the
    grid: its [len] cells, where [len] is the word's length capped at 6, are
    cells of the grid, and the cell of index [start + k] holds the [k]-th
    letter of the word as its token. *)
Theorem unobstructed_word_is_readable (seed : jsstring) (d : derived)
    (i : nat) (e : entry) :
  derive seed = Ok d ->
  mapping d !! i = Some e ->
  (forall (j : nat) (e' : entry) (c : Z),
     (i < j)%nat -> mapping d !! j = Some e' -> covers e c -> ~ covers e' c) ->
  len e = Z.min (Z.of_nat (length (word e))) 6
  /\ 0 <= start e /\ start e + len e <= totalCells
  /\ (forall k, 0 <= k < len e ->
        exists ch st,
          JS.index (word e) k = Some ch
          /\ cells d !! Z.to_nat (start e + k) = Some (Some st)
          /\ prop_t st = dquote ++ [ch] ++ dquote).
Proof.
  intros Hd Hi Hfree.
  destruct (mapping_entry_ok seed d i e Hd Hi) as [Hl Hs].
  split; [exact Hl|]. split; [lia|]. split; [lia|].
  intros k Hk. exact (readable_entry seed d i e k Hd Hi Hfree Hk).
Qed.

Lemma unobstructed_word_is_readable_witness :
  exists d st,
    derive (js "test1") = Ok d
    /\ mapping d !! 8%nat = Some (mkEntry (js "TANGO") 19 5)
    /\ cells d !! 19%nat = Some (Some st)
    /\ prop_t st = dquote ++ js "T" ++ dquote.
Proof.
  assert (H : exists d, derive (js "test1") = Ok d
                /\ mapping d !! 8%nat = Some (mkEntry (js "TANGO") 19 5)
                /\ mapping d !! 9%nat = Some (mkEntry (js "NOVEMBER") 2 6)
                /\ length (mapping d) = 10%nat).
  { eexists. split; [vm_compute; reflexivity|].
    split; [vm_compute; reflexivity|]. split; vm_compute; reflexivity. }
  destruct H as (d & Hd & H8 & H9 & Hlen).
  destruct (unobstructed_word_is_readable (js "test1") d 8 _ Hd H8)
    as (_ & _ & _ & Hread).
  - intros j e' c Hj He' Hc.
    destruct (decide (j = 9%nat)) as [->|Hne].
    + rewrite H9 in He'. injection He' as <-.
      unfold covers in *. cbn [start len] in *. lia.
    + apply lookup_lt_Some in He'. lia.
  - destruct (Hread 0) as (ch & st & Hch & Hcell & Ht);
      [cbn [len]; lia|].
    exists d, st. split; [exact Hd|]. split; [exact H8|].
    split; [exact Hcell|].
    vm_compute in Hch. injection Hch as <-. exact Ht.
Defined.

(** The last of the ten clues is never overwritten: whatever the seed, when
    the derivation completes, the cells [start .. start + len - 1] of the
    entry of index 9 hold the first [len] letters of the tenth clue. *)
Theorem last_clue_is_readable (seed : jsstring) (d : derived) :
  derive seed = Ok d ->
  exists e,
    mapping d !! 9%nat = Some e
    /\ clues d !! 9%nat = Some (Some (word e))
    /\ (forall k, 0 <= k < len e ->
          exists ch st,
            JS.index (word e) k = Some ch
            /\ cells d !! Z.to_nat (start e + k) = Some (Some st)
            /\ prop_t st = dquote ++ [ch] ++ dquote).
Proof.
  intros Hd. pose proof (derive_mapping_length seed d Hd) as Hl.
  destruct (lookup_lt_is_Some_2 (mapping d) 9) as [e He];
    [rewrite Hl; unfold CLUE_COUNT; lia|].
  exists e. split; [exact He|]. split.
  - destruct (derive_words seed d Hd) as (ws & Hc & _ & _ & Hm & _).
    rewrite Hc, <- Hm, List.map_map, lookup_map, He. reflexivity.
  - intros k Hk. apply (readable_entry seed d 9 e k Hd He); [|exact Hk].
    intros j e' c Hj Hj'. apply lookup_lt_Some in Hj'.
    rewrite Hl in Hj'. unfold CLUE_COUNT in Hj'. lia.
Qed.

Lemma last_clue_is_readable_witness :
  exists d e,
    derive (js "test1") = Ok d
    /\ mapping d !! 9%nat = Some e
    /\ word e = js "NOVEMBER".
Proof.
  assert (H : exists d, derive (js "test1") = Ok d
                        /\ option_map word (mapping d !! 9%nat)
                           = Some (js "NOVEMBER")).
  { eexists. split; vm_compute; reflexivity. }
  destruct H as (d & Hd & Hw).
  destruct (last_clue_is_readable (js "test1") d Hd) as (e & He & _).
  exists d, e. split; [exact Hd|]. split; [exact He|].
  rewrite He in Hw. now injection Hw.
Defined.

(** * The seed provider *)

Section SeedProvider.






Lemma toDigits36_grows (fuel : nat) (n : Z) (acc : jsstring) :
  (length acc <= length (toDigits36 fuel n acc))%nat.
Proof.
  revert n acc. induction fuel as [|f IH]; intros n acc; cbn [toDigits36].
  - lia.
  - destruct (n / 36 =? 0); [cbn [length]; lia|].
    specialize (IH (n / 36) (digit36 (n mod 36) :: acc)).
    cbn [length] in IH. lia.
Qed.

Lemma toDigits36_S (f : nat) (n : Z) (acc : jsstring) :
  toDigits36 (S f) n acc
  = if n / 36 =? 0 then digit36 (n mod 36) :: acc
    else toDigits36 f (n / 36) (digit36 (n mod 36) :: acc).
Proof. reflexivity. Qed.

Lemma freshSeed_truthy (rnd : Q) : truthy (Some (freshSeed rnd)) = true.
Proof.
  unfold freshSeed, toString36.
  set (n := JS.floor _). rewrite toDigits36_S.
  destruct (n / 36 =? 0); [reflexivity|].
  pose proof (toDigits36_grows 6 (n / 36) [digit36 (n mod 36)]) as H.
  destruct (toDigits36 6 (n / 36) [digit36 (n mod 36)]);
    [cbn [length] in H; lia|reflexivity].
Qed.

End SeedProvider.



(** Reloading the page keeps the seed: a second [getSeed] on the browser the
    first one left, with the same URL, returns the same seed and changes
    nothing, whatever [Math.random] would return. *)
Theorem getSeed_stable (rnd rnd' : Q) (b : browser) :
  getSeed rnd' (snd (getSeed rnd b)) = getSeed rnd b.
Proof.
  unfold getSeed. destruct b as [q st]. cbn [query_seed session_seed].
  destruct (truthy q) eqn:Hq; cbn [query_seed session_seed fst snd].
  - rewrite Hq. cbn [snd query_seed session_seed]. rewrite Hq.
    cbn [session_seed]. now rewrite Hq.
  - destruct (truthy st) eqn:Hs; cbn [snd query_seed session_seed];
      rewrite Hq; cbn [session_seed].
    + now rewrite Hs.
    + now rewrite freshSeed_truthy.
Qed.

(** The regenerate button changes the seed only when the URL carries no
    seed: after the click and the reload, [getSeed] returns the URL's seed
    when that is a non-empty string (the generated one is overwritten), and
    the newly generated seed otherwise. *)
Theorem regen_then_reload (rnd rnd' : Q) (b : browser) :
  fst (getSeed rnd' (regen_click rnd b))
  = (if truthy (query_seed b) then query_seed b else Some (freshSeed rnd))
  /\ session_seed (snd (getSeed rnd' (regen_click rnd b)))
     = fst (getSeed rnd' (regen_click rnd b)).
Proof.
  unfold getSeed, regen_click. destruct b as [q st].
  cbn [query_seed session_seed].
  destruct (truthy q) eqn:Hq; cbn [query_seed session_seed].
  - rewrite Hq. split; reflexivity.
  - rewrite freshSeed_truthy. split; reflexivity.
Qed.

(** * Playing through *)

Section Play.

Lemma norm_upper_word (w : jsstring) :
  forallb upper_letter w = true -> norm (Some w) = w.
Proof.
  unfold norm. induction w as [|c w IH]; [reflexivity|].
  cbn [forallb]. intros H. apply andb_true_iff in H as [Hc Hw].
  assert (Hk : norm_keep c = true) by (unfold norm_keep; unfold upper_letter in Hc; now rewrite Hc).
  cbn [List.filter]. rewrite Hk. cbn [List.map]. rewrite (IH Hw).
  f_equal. pose proof (charToken_upper c Hc) as Ht.
  unfold charToken in Ht. unfold upper_letter in Hc.
  unfold JS.toUpperCase1 in *.
  apply andb_true_iff in Hc as [H1 H2]. apply Z.leb_le in H1, H2.
  replace (97 <=? c) with false by (symmetry; apply Z.leb_gt; lia).
  reflexivity.
Qed.

Lemma word_nonempty (w : jsstring) : In w WORDS -> w <> [].
Proof.
  assert (H : forallb (fun w => negb (Nat.eqb (length w) 0)) WORDS = true)
    by (vm_compute; reflexivity).
  rewrite forallb_forall in H. intros Hw E. specialize (H w Hw).
  now rewrite E in H.
Qed.

Lemma clue_at_middle (done rest : list jsstring) (w : jsstring) :
  clue_at (List.map Some (done ++ w :: rest)) (Z.of_nat (length done)) = Some w.
Proof.
  unfold clue_at, JS.index.
  replace (Z.of_nat (length done) <? 0) with false
    by (symmetry; apply Z.ltb_ge; lia).
  rewrite Nat2Z.id, lookup_map, lookup_app_r by lia.
  now rewrite Nat.sub_diag.
Qed.

(** Submitting the expected word of the list. *)
Lemma submit_expected (p : page) (w : jsstring) :
  In w WORDS ->
  clue_at (clues (data p)) (current p - 1) = Some w ->
  let p' := run p [TypeAnswer w; ClickSubmit] in
  data p' = data p
  /\ current p' = current p + 1
  /\ (10 <= current p ->
        finalInput_disabled p' = false /\ finalBtn_disabled p' = false
        /\ inst p' = InstAllFound).
Proof.
  intros Hw Hc. cbn [run fold_left step]. unfold submit_click.
  cbn [answer_value set_answer_value data current]. rewrite Hc.
  rewrite (norm_upper_word w (words_upper w Hw)).
  pose proof (word_nonempty w Hw) as Hne.
  destruct w as [|c w]; [congruence|].
  destruct (decide _) as [_|Hn]; [|congruence].
  page_simpl. change (Z.of_nat CLUE_COUNT) with 10.
  destruct (current p + 1 >? 10) eqn:G; page_simpl.
  - repeat split.
  - rewrite Z.gtb_ltb in G. apply Z.ltb_ge in G.
    split; [reflexivity|]. split; [reflexivity|]. intros; lia.
Qed.

Lemma run_app (p : page) (es fs : list event) :
  run p (es ++ fs) = run (run p es) fs.
Proof. unfold run. apply fold_left_app. Qed.

Lemma play_from (d : derived) (rest done : list jsstring) (p : page) :
  clues d = List.map Some (done ++ rest) ->
  length (done ++ rest) = CLUE_COUNT ->
  Forall (fun w => In w WORDS) rest ->
  data p = d ->
  current p = Z.of_nat (length done) + 1 ->
  let p' := run p (play rest) in
  data p' = d
  /\ current p' = 11
  /\ (rest <> [] ->
        finalInput_disabled p' = false /\ finalBtn_disabled p' = false
        /\ inst p' = InstAllFound).
Proof.
  revert done p. induction rest as [|w rest IH]; intros done p Hcl Hlen Hw Hd Hc.
  - cbn. rewrite app_nil_r in Hlen. unfold CLUE_COUNT in Hlen.
    split; [exact Hd|]. split; [lia|]. congruence.
  - apply Forall_cons_1 in Hw as [Hw Hrest].
    cbn [play flat_map]. change (flat_map _ rest) with (play rest).
    rewrite run_app.
    destruct (submit_expected p w Hw) as (Hd1 & Hc1 & Hf1).
    { rewrite Hd, Hcl, Hc. replace (Z.of_nat (length done) + 1 - 1)
        with (Z.of_nat (length done)) by lia. apply clue_at_middle. }
    set (p1 := run p [TypeAnswer w; ClickSubmit]) in *.
    destruct rest as [|w' rest'].
    + change (play []) with (@nil event). change (run p1 []) with p1.
      cbv zeta. rewrite length_app in Hlen. cbn [length] in Hlen.
      unfold CLUE_COUNT in Hlen.
      split; [congruence|]. split; [lia|]. intros _. apply Hf1. lia.
    + destruct (IH (done ++ [w]) p1) as (H1 & H2 & H3).
      * now rewrite <- app_assoc.
      * now rewrite <- app_assoc.
      * exact Hrest.
      * congruence.
      * rewrite length_app. cbn [length]. lia.
      * split; [exact H1|]. split; [exact H2|]. intros _. now apply H3.
Qed.

End Play.

(** Every puzzle that loads can be solved with its own words: typing the
    ten clues in order, each followed by a click on submit, brings the
    counter to 11 and enables the final controls, whatever the markup; the
    clues joined by hyphens are then accepted as the passphrase. *)
Theorem puzzle_is_solvable (markup : bool) (seed : jsstring) (d : derived) :
  derive seed = Ok d ->
  exists ws,
    clues d = List.map Some ws
    /\ let p := run (init_page markup d) (play ws) in
       current p = 11
       /\ finalInput_disabled p = false
       /\ finalBtn_disabled p = false
       /\ inst p = InstAllFound
       /\ finalMsg (run p [TypeFinal (join (js "-") (clues d)); ClickFinal])
          = Some Congratulations.
Proof.
  intros Hd. destruct (derive_words seed d Hd) as (ws & Hc & Hl & Hw & _).
  exists ws. split; [exact Hc|]. intros p.
  destruct (play_from d ws [] (init_page markup d)) as (Hd' & Hcur & Hf);
    try assumption; try reflexivity.
  fold p in Hd', Hcur, Hf.
  destruct Hf as (Hi & Hb & Hinst).
  { intros ->. discriminate Hl. }
  split; [exact Hcur|]. split; [exact Hi|]. split; [exact Hb|].
  split; [exact Hinst|].
  cbn [run fold_left step]. rewrite Hi.
  cbn [finalBtn_disabled set_finalInput_value]. rewrite Hb.
  unfold final_click. cbn [finalInput_value set_finalInput_value data].
  rewrite Hd'. destruct (decide _) as [_|Hn]; [reflexivity|congruence].
Qed.

Lemma puzzle_is_solvable_witness :
  exists d,
    derive (js "4w6fpv") = Ok d
    /\ current (run (init_page true d)
                  (play (List.map js
                     [ "STEEL"; "MIKE"; "YANKEE"; "CHARLIE"; "PEN"; "BRAVO";
                       "TANGO"; "RIVER"; "GOLD"; "RIVER" ]%string))) = 11.
Proof.
  assert (H : exists d, derive (js "4w6fpv") = Ok d
                /\ clues d = List.map Some (List.map js
                     [ "STEEL"; "MIKE"; "YANKEE"; "CHARLIE"; "PEN"; "BRAVO";
                       "TANGO"; "RIVER"; "GOLD"; "RIVER" ]%string)).
  { eexists. split; vm_compute; reflexivity. }
  destruct H as (d & Hd & Hc). exists d. split; [exact Hd|].
  destruct (puzzle_is_solvable true (js "4w6fpv") d Hd) as (ws & Hws & Hcur & _).
  rewrite Hc in Hws.
  assert (E : ws = List.map js
                     [ "STEEL"; "MIKE"; "YANKEE"; "CHARLIE"; "PEN"; "BRAVO";
                       "TANGO"; "RIVER"; "GOLD"; "RIVER" ]%string).
  { clear -Hws. revert Hws. generalize (List.map js
                     [ "STEEL"; "MIKE"; "YANKEE"; "CHARLIE"; "PEN"; "BRAVO";
                       "TANGO"; "RIVER"; "GOLD"; "RIVER" ]%string).
    induction ws as [|w ws IH]; intros [|v l] H; try discriminate;
      [reflexivity|].
    injection H as -> H. f_equal. now apply IH. }
  rewrite <- E. exact Hcur.
Defined.

(** * What the handlers keep *)

Section Handlers.

Lemma step_keeps (p : page) (e : event) :
  data (step p e) = data p
  /\ current p <= current (step p e) <= current p + 1
  /\ (is_submit e = false -> current (step p e) = current p)
  /\ (exists l, consoleLog (step p e) = consoleLog p ++ l).
Proof.
  assert (Hnil : forall l : list log_msg, exists l', l = l ++ l')
    by (intros l; exists []; now rewrite app_nil_r).
  destruct e as [s| | |s|]; cbn [step is_submit].
  - page_simpl. repeat split; try lia; auto.
  - unfold submit_click.
    destruct (norm (Some (answer_value p))) as [|c v].
    { page_simpl. repeat split; try lia; try discriminate; auto. }
    destruct (decide _) as [He|Hne]; page_simpl.
    + destruct (current p + 1 >? Z.of_nat CLUE_COUNT); page_simpl;
        (repeat split; try lia; try discriminate; eexists; reflexivity).
    + repeat split; try lia; try discriminate. eexists; reflexivity.
  - unfold hint_click. destruct (JS.index _ _) as [m|]; page_simpl.
    + repeat split; try lia. eexists; reflexivity.
    + repeat split; try lia; auto.
  - destruct (finalInput_disabled p); page_simpl;
      (repeat split; try lia; auto).
  - destruct (finalBtn_disabled p).
    { repeat split; try lia; auto. }
    unfold final_click. destruct (decide _); page_simpl;
      (repeat split; try lia; eexists; reflexivity).
Qed.

Lemma progress_data (p : page) (es : list event) :
  data (run p es) = data p.
Proof.
  revert p. induction es as [|e es IH]; intros p; [reflexivity|].
  cbn [run fold_left]. change (fold_left step es ?q) with (run q es).
  rewrite IH. apply step_keeps.
Qed.

End Handlers.

(** No action of the player alters the derived data, lowers the step
    counter or erases a logged message; the counter grows by at most one per
    click on submit. *)
Theorem progress_is_monotone (p : page) (es : list event) :
  data (run p es) = data p
  /\ current p <= current (run p es)
     <= current p + Z.of_nat (length (List.filter is_submit es))
  /\ (exists l, consoleLog (run p es) = consoleLog p ++ l).
Proof.
  revert p. induction es as [|e es IH]; intros p.
  - cbn. repeat split; try lia. exists []. now rewrite app_nil_r.
  - cbn [run fold_left]. change (fold_left step es ?q) with (run q es).
    destruct (IH (step p e)) as (Hd & Hc & (l & Hl)).
    destruct (step_keeps p e) as (Hd1 & Hc1 & Hn1 & (l1 & Hl1)).
    split; [congruence|]. split.
    + cbn [List.filter]. destruct (is_submit e) eqn:E.
      * cbn [length]. lia.
      * specialize (Hn1 eq_refl). lia.
    + exists (l1 ++ l). now rewrite Hl, Hl1, app_assoc.
Qed.

(** The hint button never changes the counter or the derived data.  While
    the counter is at most 10 it shows and logs the start offset and the
    length of the entry of the current step, which lie inside the grid; in
    the final phase (counter 11) it does nothing at all. *)
Theorem hint_click_spec (markup : bool) (seed : jsstring) (d : derived)
    (es : list event) :
  derive seed = Ok d ->
  let p := run (init_page markup d) es in
  let p' := step p ClickHint in
  current p' = current p
  /\ data p' = data p
  /\ (current p <= 10 ->
        exists e,
          mapping d !! Z.to_nat (current p - 1) = Some e
          /\ hintBox p' = Some (HintMsg (current p - 1) (start e) (len e))
          /\ consoleLog p'
             = consoleLog p ++ [LogHint (current p - 1) (start e) (len e)]
          /\ 0 <= start e /\ start e + len e <= totalCells)
  /\ (current p = 11 -> p' = p).
Proof.
  intros Hd p p'.
  destruct (page_inv_run markup d es (init_page markup d)
              (derive_clues_length _ _ Hd) (page_inv_init markup d))
    as (Hdata & Hc & _).
  fold p in Hdata, Hc.
  destruct (step_keeps p ClickHint) as (Hd1 & _ & Hc1 & _).
  fold p' in Hd1, Hc1.
  split; [now apply Hc1|]. split; [exact Hd1|].
  pose proof (derive_mapping_length seed d Hd) as Hlen.
  unfold CLUE_COUNT in Hlen.
  subst p'. cbn [step]. unfold hint_click. rewrite Hdata. unfold JS.index.
  replace (current p - 1 <? 0) with false by (symmetry; apply Z.ltb_ge; lia).
  split.
  - intros Hle.
    destruct (lookup_lt_is_Some_2 (mapping d) (Z.to_nat (current p - 1)))
      as [e He]; [lia|].
    rewrite He. exists e. split; [reflexivity|]. page_simpl.
    split; [reflexivity|]. split; [reflexivity|].
    destruct (mapping_entry_ok seed d _ e Hd He) as [_ Hs]. lia.
  - intros H11. rewrite lookup_ge_None_2 by lia. reflexivity.
Qed.

Lemma hint_click_spec_witness :
  exists d,
    derive (js "test1") = Ok d
    /\ hintBox (step (run (init_page true d) [TypeAnswer (js "delta"); ClickSubmit])
                  ClickHint)
       = Some (HintMsg 1 21 6).
Proof.
  assert (H : exists d, derive (js "test1") = Ok d
                /\ mapping d !! 1%nat = Some (mkEntry (js "FOXTROT") 21 6)
                /\ current (run (init_page true d)
                              [TypeAnswer (js "delta"); ClickSubmit]) = 2).
  { eexists. split; [vm_compute; reflexivity|].
    split; vm_compute; reflexivity. }
  destruct H as (d & Hd & Hm & Hc). exists d. split; [exact Hd|].
  destruct (hint_click_spec true (js "test1") d
              [TypeAnswer (js "delta"); ClickSubmit] Hd) as (_ & _ & Hh & _).
  rewrite Hc in Hh. destruct Hh as (e & He & Hb & _); [lia|].
  change (Z.to_nat (2 - 1)) with 1%nat in He. rewrite Hm in He.
  injection He as <-. exact Hb.
Defined.

(** * Normalization, continued *)

Section NormMore.

Lemma norm_app (s t : jsstring) :
  norm (Some (s ++ t)) = norm (Some s) ++ norm (Some t).
Proof. unfold norm. now rewrite List.filter_app, List.map_app. Qed.



End NormMore.


Section Passphrase.

Lemma upper_no_hyphen (w : jsstring) :
  forallb upper_letter w = true -> count_occ Z.eq_dec w 45 = 0%nat.
Proof.
  induction w as [|c w IH]; [reflexivity|].
  cbn [forallb]. intros H. apply andb_true_iff in H as [Hc Hw].
  unfold upper_letter in Hc. apply andb_true_iff in Hc as [H1 _].
  apply Z.leb_le in H1. cbn [count_occ].
  destruct (Z.eq_dec c 45); [lia|]. now apply IH.
Qed.

(** The expected passphrase for clues that are words of the list: the words
    themselves, with one hyphen between two of them. *)
Lemma passphrase_of_words (ws : list jsstring) :
  Forall (fun w => In w WORDS) ws ->
  norm (Some (join (js "-") (List.map Some ws)))
  = join (js "-") (List.map Some ws)
  /\ count_occ Z.eq_dec (join (js "-") (List.map Some ws)) 45
     = (length ws - 1)%nat.
Proof.
  induction 1 as [|w ws Hw Hws IH]; [split; reflexivity|].
  pose proof (words_upper w Hw) as Hu.
  cbn [List.map join]. destruct ws as [|w' ws'].
  - cbn [List.map]. split; [now apply norm_upper_word|].
    now rewrite upper_no_hyphen.
  - destruct IH as [IH1 IH2]. cbn [List.map] in *. split.
    + rewrite !norm_app, IH1, (norm_upper_word w Hu). reflexivity.
    + rewrite !count_occ_app, IH2, (upper_no_hyphen w Hu).
      change (count_occ Z.eq_dec (js "-") 45) with 1%nat.
      cbn [length]. lia.
Qed.

End Passphrase.

(** The final passphrase needs its hyphens: once the ten clues are found,
    an input whose normalization does not contain exactly nine hyphens (the
    words run together, or separated by spaces) is answered with the retry
    message. *)
Theorem final_requires_hyphens (markup : bool) (seed : jsstring)
    (d : derived) (es : list event) (given : jsstring) :
  derive seed = Ok d ->
  let p := run (init_page markup d) es in
  finalInput_disabled p = false ->
  finalBtn_disabled p = false ->
  count_occ Z.eq_dec (norm (Some given)) 45 <> 9%nat ->
  finalMsg (run p [TypeFinal given; ClickFinal]) = Some PassphraseIncorrect.
Proof.
  intros Hd p Hi Hb Hcount.
  pose proof (progress_data (init_page markup d) es) as Hdata.
  destruct (derive_words seed d Hd) as (ws & Hc & Hl & Hw & _).
  destruct (passphrase_of_words ws Hw) as [Hn Hh].
  cbn [run fold_left step]. rewrite Hi.
  cbn [finalBtn_disabled set_finalInput_value]. rewrite Hb.
  unfold final_click. cbn [finalInput_value set_finalInput_value data].
  unfold p. rewrite Hdata. change (data (init_page markup d)) with d.
  rewrite Hc, Hn.
  destruct (decide _) as [He|_]; [|reflexivity].
  exfalso. apply Hcount. rewrite He, Hh, Hl. reflexivity.
Qed.

Lemma final_requires_hyphens_witness :
  exists d,
    derive (js "test1") = Ok d
    /\ let p :=
         run (init_page true d)
           (play (List.map js
              [ "DELTA"; "FOXTROT"; "BRAVO"; "CHARLIE"; "GOLF"; "VICTOR";
                "STEEL"; "ECHO"; "TANGO"; "NOVEMBER" ]%string)) in
       let given :=
         js "delta foxtrot bravo charlie golf victor steel echo tango november" in
       finalInput_disabled p = false
       /\ finalBtn_disabled p = false
       /\ count_occ Z.eq_dec (norm (Some given)) 45 <> 9%nat
       /\ finalMsg (run p [TypeFinal given; ClickFinal])
          = Some PassphraseIncorrect.
Proof.
  eexists. split; [vm_compute; reflexivity|].
  match goal with
  | |- context [init_page true ?d] =>
      assert (Hd : derive (js "test1") = Ok d) by (vm_compute; reflexivity)
  end.
  intros p given.
  assert (H1 : finalInput_disabled p = false) by (vm_compute; reflexivity).
  assert (H2 : finalBtn_disabled p = false) by (vm_compute; reflexivity).
  assert (H3 : count_occ Z.eq_dec (norm (Some given)) 45 <> 9%nat)
    by (vm_compute; discriminate).
  split; [exact H1|]. split; [exact H2|]. split; [exact H3|].
  exact (final_requires_hyphens true (js "test1") _ _ given Hd H1 H2 H3).
Defined.

(** * The console helpers *)

Section XorLoop.

Lemma xor_from_pairs (fuel : nat) (pre rest key out : jsstring) :
  (length rest <= fuel)%nat ->
  Nat.Even (length pre) ->
  xor_from fuel (pre ++ rest) key (Z.of_nat (length pre)) out
  = out ++ xor_pairs rest key (Z.of_nat (length pre) / 2).
Proof.
  revert pre rest out. induction fuel as [|f IH]; intros pre rest out Hf Hev.
  - destruct rest; [|cbn in Hf; lia]. cbn. now rewrite app_nil_r.
  - cbn [xor_from]. rewrite length_app.
    destruct rest as [|a [|b r]].
    + replace (_ <? _) with false by (symmetry; apply Z.ltb_ge; cbn; lia).
      cbn. now rewrite app_nil_r.
    + replace (_ <? _) with true by (symmetry; apply Z.ltb_lt; cbn; lia).
      assert (Hs : substr2 (pre ++ [a]) (Z.of_nat (length pre)) = [a]).
      { unfold substr2. rewrite Nat2Z.id, skipn_app, Nat.sub_diag.
        rewrite skipn_all. reflexivity. }
      rewrite Hs.
      replace (pre ++ [a]) with ((pre ++ [a]) ++ []) by apply app_nil_r.
      destruct f as [|f'].
      * cbn [xor_from xor_pairs]. unfold xor_unit, fromCharCode.
        destruct Hev as [h Hh]. rewrite Hh.
        replace (Z.of_nat (2 * h) / 2) with (Z.of_nat h)
          by (rewrite Nat2Z.inj_mul, Z.mul_comm, Z.div_mul; lia).
        replace (2 * Z.of_nat h) with (Z.of_nat (2 * h)) by lia. reflexivity.
      * cbn [xor_from]. rewrite length_app, !length_app. cbn [length].
        replace (_ <? _) with false by (symmetry; apply Z.ltb_ge; lia).
        cbn [xor_pairs]. unfold xor_unit, fromCharCode.
        destruct Hev as [h Hh]. rewrite Hh.
        replace (Z.of_nat (2 * h) / 2) with (Z.of_nat h)
          by (rewrite Nat2Z.inj_mul, Z.mul_comm, Z.div_mul; lia).
        replace (2 * Z.of_nat h) with (Z.of_nat (2 * h)) by lia. reflexivity.
    + replace (_ <? _) with true by (symmetry; apply Z.ltb_lt; cbn; lia).
      assert (Hs : substr2 (pre ++ a :: b :: r) (Z.of_nat (length pre)) = [a; b]).
      { unfold substr2. rewrite Nat2Z.id, skipn_app, Nat.sub_diag.
        rewrite skipn_all. reflexivity. }
      rewrite Hs.
      replace (pre ++ a :: b :: r) with ((pre ++ [a; b]) ++ r)
        by (now rewrite <- app_assoc).
      replace (Z.of_nat (length pre) + 2) with (Z.of_nat (length (pre ++ [a; b])))
        by (rewrite length_app; cbn [length]; lia).
      rewrite IH.
      * rewrite <- app_assoc. f_equal. cbn [xor_pairs app].
        unfold xor_unit, fromCharCode. rewrite length_app. cbn [length].
        destruct Hev as [h Hh]. rewrite Hh.
        replace (Z.of_nat (2 * h) / 2) with (Z.of_nat h)
          by (rewrite Nat2Z.inj_mul, Z.mul_comm, Z.div_mul; lia).
        replace (Z.of_nat (2 * h + 2) / 2) with (Z.of_nat h + 1).
        2:{ replace (Z.of_nat (2 * h + 2)) with ((Z.of_nat h + 1) * 2) by lia.
            now rewrite Z.div_mul by lia. }
        replace (2 * Z.of_nat h) with (Z.of_nat (2 * h)) by lia. reflexivity.
      * cbn [length] in Hf. lia.
      * rewrite length_app. cbn [length]. destruct Hev as [h Hh].
        exists (h + 1)%nat. lia.
Qed.

Lemma clueApi_xor_pairs (hex key : jsstring) :
  clueApi_xor hex key = xor_pairs hex key 0.
Proof.
  unfold clueApi_xor.
  exact (xor_from_pairs (length hex) [] hex key [] (le_n _) (ex_intro _ 0%nat eq_refl)).
Qed.

End XorLoop.

Section XorDecode.

Lemma xor_pairs_length (n : nat) (rest key : jsstring) (k : Z) :
  (length rest <= n)%nat ->
  length (xor_pairs rest key k) = Nat.div2 (S (length rest)).
Proof.
  revert rest k. induction n as [|n IH]; intros rest k Hn.
  - destruct rest; [reflexivity|cbn in Hn; lia].
  - destruct rest as [|a [|b r]]; try reflexivity.
    cbn [xor_pairs length]. rewrite IH by (cbn [length] in Hn; lia).
    reflexivity.
Qed.

Lemma lxor_mod_pow2 (a b n : Z) :
  0 <= n -> Z.lxor a b mod 2 ^ n = Z.lxor (a mod 2 ^ n) (b mod 2 ^ n).
Proof.
  intros Hn. apply Z.bits_inj'. intros m Hm. rewrite Z.lxor_spec.
  destruct (Z.lt_ge_cases m n) as [Hlt|Hge].
  - now rewrite !Z.mod_pow2_bits_low, Z.lxor_spec by lia.
  - now rewrite !Z.mod_pow2_bits_high by lia.
Qed.

Lemma lxor_below (a b n : Z) :
  0 <= n -> 0 <= a < 2 ^ n -> 0 <= b < 2 ^ n -> 0 <= Z.lxor a b < 2 ^ n.
Proof.
  intros Hn Ha Hb.
  rewrite <- (Z.mod_small a (2 ^ n)), <- (Z.mod_small b (2 ^ n)) by lia.
  rewrite <- lxor_mod_pow2 by lia. apply Z.mod_pos_bound. lia.
Qed.

Lemma ToInt32_small (z : Z) : 0 <= z < 2 ^ 31 -> JS.ToInt32 z = z.
Proof.
  intros H. unfold JS.ToInt32. rewrite Z.mod_small by lia.
  replace (z <? 2 ^ 31) with true by (symmetry; apply Z.ltb_lt; lia).
  reflexivity.
Qed.

(** On code units the exclusive-or of the loop is the plain one. *)
Lemma xor_units (x y : Z) :
  0 <= x < 65536 -> 0 <= y < 65536 -> JS.xor x y mod 65536 = Z.lxor x y.
Proof.
  intros Hx Hy. unfold JS.xor. rewrite !ToInt32_small by lia.
  apply Z.mod_small. apply (lxor_below x y 16); lia.
Qed.

Lemma hexval_range (c v : Z) : hexval c = Some v -> 0 <= v < 16.
Proof.
  unfold hexval.
  destruct ((48 <=? c) && (c <=? 57)) eqn:E1;
    [|destruct ((97 <=? c) && (c <=? 102)) eqn:E2;
      [|destruct ((65 <=? c) && (c <=? 70)) eqn:E3; [|discriminate]]];
    intros [= <-];
    match goal with H : _ && _ = true |- _ =>
      apply andb_true_iff in H as [H1 H2]; apply Z.leb_le in H1, H2 end; lia.
Qed.

Lemma hexval_not_space (c v : Z) :
  hexval c = Some v -> isStrWhiteSpace c = false /\ c <> 45 /\ c <> 43
                       /\ c <> 120 /\ c <> 88.
Proof.
  unfold hexval.
  destruct ((48 <=? c) && (c <=? 57)) eqn:E1;
    [|destruct ((97 <=? c) && (c <=? 102)) eqn:E2;
      [|destruct ((65 <=? c) && (c <=? 70)) eqn:E3; [|discriminate]]];
    intros _;
    match goal with H : _ && _ = true |- _ =>
      apply andb_true_iff in H as [H1 H2]; apply Z.leb_le in H1, H2 end;
    (split; [|lia]); unfold isStrWhiteSpace; cbn [existsb];
    repeat (rewrite (proj2 (Z.eqb_neq c _)) by lia);
    cbn [orb]; apply andb_false_iff; left; apply Z.leb_gt; lia.
Qed.

(** [parseInt] of two hexadecimal digits. *)
Lemma parseInt16_pair (a b h l : Z) :
  hexval a = Some h -> hexval b = Some l ->
  parseInt16 [a; b] = Some (16 * h + l).
Proof.
  intros Ha Hb. destruct (hexval_not_space a h Ha) as (Hw & Hm & Hp & _).
  destruct (hexval_not_space b l Hb) as (_ & _ & _ & Hx & HX).
  unfold parseInt16. cbn [trimStart]. rewrite Hw. cbv zeta.
  rewrite (proj2 (Z.eqb_neq a 45) Hm), (proj2 (Z.eqb_neq a 43) Hp).
  cbn [orb]. cbv beta iota.
  rewrite (proj2 (Z.eqb_neq b 120) Hx), (proj2 (Z.eqb_neq b 88) HX).
  cbn [orb]. rewrite andb_false_r. cbn [hexDigits]. rewrite Ha, Hb.
  cbn [option_map]. f_equal. lia.
Qed.

Lemma keyByteAt_unit (key : jsstring) (i : Z) :
  Forall code_unit key -> 0 <= i ->
  0 <= int_operand (keyByteAt key i) < 65536.
Proof.
  intros Hk Hi. unfold keyByteAt. destruct key as [|c key]; [cbn; lia|].
  destruct (_ !! _) as [u|] eqn:E; [|cbn; lia].
  rewrite List.Forall_forall in Hk. apply (Hk u), list_elem_of_In.
  eapply list_elem_of_lookup_2. exact E.
Qed.

(** Pair by pair, hexadecimal digits decode to the byte they write,
    combined with the key unit of that position. *)
Lemma xor_pairs_hex (pairs : list (Z * Z)) (key : jsstring) (k0 : Z)
    (i : nat) (a b : Z) :
  Forall code_unit key -> 0 <= k0 ->
  Forall (fun p => is_Some (hexval (fst p)) /\ is_Some (hexval (snd p))) pairs ->
  pairs !! i = Some (a, b) ->
  exists h l,
    hexval a = Some h /\ hexval b = Some l
    /\ xor_pairs (flat_map (fun p => [fst p; snd p]) pairs) key k0 !! i
       = Some (Z.lxor (16 * h + l)
                 (int_operand (keyByteAt key (2 * (k0 + Z.of_nat i))))).
Proof.
  intros Hk. revert k0 i.
  induction pairs as [|[a' b'] pairs IH]; intros k0 i Hk0 Hp Hi; [discriminate|].
  apply Forall_cons_1 in Hp as [[[h Ha] [l Hb]] Hp]. cbn [fst snd] in Ha, Hb.
  cbn [flat_map app fst snd xor_pairs]. destruct i as [|i].
  - injection Hi as <- <-. exists h, l. split; [exact Ha|]. split; [exact Hb|].
    cbn [lookup list_lookup]. f_equal. unfold xor_unit.
    rewrite (parseInt16_pair _ _ _ _ Ha Hb). cbn [int_operand].
    rewrite Z.add_0_r. apply xor_units.
    + apply hexval_range in Ha, Hb. lia.
    + apply keyByteAt_unit; [exact Hk|lia].
  - change (pairs !! i = Some (a, b)) in Hi.
    match goal with |- context [(?x :: ?l) !! S i] =>
      change ((x :: l) !! S i) with (l !! i) end.
    destruct (IH (k0 + 1) i) as (h' & l' & Ha' & Hb' & Hout);
      [lia|exact Hp|exact Hi|].
    exists h', l'. split; [exact Ha'|]. split; [exact Hb'|].
    rewrite Hout. do 4 f_equal. lia.
Qed.

Lemma keyByteAt_nonempty (key : jsstring) (k : nat) :
  key <> [] ->
  keyByteAt key (2 * Z.of_nat k) = key !! (k mod length key)%nat.
Proof.
  intros Hne. unfold keyByteAt. destruct key as [|c key']; [congruence|].
  set (key := c :: key') in *.
  replace (2 * Z.of_nat k / 2) with (Z.of_nat k)
    by (rewrite Z.mul_comm, Z.div_mul; lia).
  assert (Hl : length key <> 0%nat) by (subst key; cbn; lia).
  now rewrite <- Nat2Z.inj_mod, Nat2Z.id.
Qed.

Lemma xor_pairs_hex_length (pairs : list (Z * Z)) (key : jsstring) (k0 : Z) :
  length (xor_pairs (flat_map (fun p => [fst p; snd p]) pairs) key k0)
  = length pairs.
Proof.
  revert k0. induction pairs as [|[a b] pairs IH]; intros k0; [reflexivity|].
  cbn [flat_map app fst snd xor_pairs length]. now rewrite IH.
Qed.

End XorDecode.

(** [_clueApi.xor] never fails and returns one code unit per pair of input
    code units, a last single one included: its result has
    [ceil(hex.length / 2)] units, whatever the input and the key. *)
Theorem clueApi_xor_length (hex key : jsstring) :
  length (clueApi_xor hex key) = Nat.div2 (S (length hex))
  /\ Forall code_unit (clueApi_xor hex key).
Proof.
  rewrite clueApi_xor_pairs. split.
  - now apply (xor_pairs_length (length hex)).
  - generalize 0. generalize (le_n (length hex)).
    generalize (length hex) at 2. intros n. revert hex.
    induction n as [|n IH]; intros hex Hn k.
    + destruct hex; [constructor|cbn in Hn; lia].
    + destruct hex as [|a [|b r]]; cbn [xor_pairs].
      * constructor.
      * repeat constructor; unfold xor_unit, code_unit;
          apply Z.mod_pos_bound; lia.
      * constructor.
        -- unfold xor_unit, code_unit. apply Z.mod_pos_bound. lia.
        -- apply IH. cbn [length] in Hn. lia.
Qed.

(** On a string of pairs of hexadecimal digits (in either case) and a
    non-empty key, [_clueApi.xor] returns one unit per pair: the byte the two
    digits write, combined by exclusive-or with the key unit of the same
    position, the key being repeated as often as needed. *)
Theorem clueApi_xor_decodes (pairs : list (Z * Z)) (key : jsstring) :
  key <> [] -> Forall code_unit key ->
  Forall (fun p => is_Some (hexval (fst p)) /\ is_Some (hexval (snd p))) pairs ->
  let out := clueApi_xor (flat_map (fun p => [fst p; snd p]) pairs) key in
  length out = length pairs
  /\ (forall (i : nat) (a b : Z), pairs !! i = Some (a, b) ->
        exists h l u,
          hexval a = Some h /\ hexval b = Some l
          /\ key !! (i mod length key)%nat = Some u
          /\ out !! i = Some (Z.lxor (16 * h + l) u)).
Proof.
  intros Hne Hk Hp out. subst out. rewrite clueApi_xor_pairs.
  split; [apply xor_pairs_hex_length|].
  intros i a b Hi.
  destruct (xor_pairs_hex pairs key 0 i a b Hk (Z.le_refl 0) Hp Hi)
    as (h & l & Ha & Hb & Hout).
  assert (Hlen : (0 < length key)%nat) by (destruct key; [congruence|cbn; lia]).
  destruct (lookup_lt_is_Some_2 key (i mod length key)) as [u Hu];
    [apply Nat.mod_upper_bound; lia|].
  exists h, l, u. split; [exact Ha|]. split; [exact Hb|]. split; [exact Hu|].
  rewrite Hout, Z.add_0_l, (keyByteAt_nonempty key i Hne).
  unfold jsstring in *. now rewrite Hu.
Qed.

Lemma clueApi_xor_decodes_witness :
  js "k" <> [] /\ Forall code_unit (js "k")
  /\ clueApi_xor (js "2A0f") (js "k") = [65; 100].
Proof.
  assert (H1 : js "k" <> []) by discriminate.
  assert (H2 : Forall code_unit (js "k"))
    by (repeat constructor; unfold code_unit; cbn; lia).
  split; [exact H1|]. split; [exact H2|].
  assert (H3 : Forall (fun p => is_Some (hexval (fst p)) /\ is_Some (hexval (snd p)))
                 [(50, 65); (48, 102)]).
  { repeat constructor; cbn; eexists; reflexivity. }
  destruct (clueApi_xor_decodes [(50, 65); (48, 102)] (js "k") H1 H2 H3)
    as [Hl Hout].
  destruct (Hout 0%nat 50 65 eq_refl) as (h0 & l0 & u0 & Ha0 & Hb0 & Hu0 & Ho0).
  destruct (Hout 1%nat 48 102 eq_refl) as (h1 & l1 & u1 & Ha1 & Hb1 & Hu1 & Ho1).
  injection Ha0 as <-. injection Hb0 as <-. injection Hu0 as <-.
  injection Ha1 as <-. injection Hb1 as <-. injection Hu1 as <-.
  change (flat_map (fun p : Z * Z => [fst p; snd p]) [(50, 65); (48, 102)])
    with (js "2A0f") in *.
  destruct (clueApi_xor (js "2A0f") (js "k")) as [|x [|y [|z r]]];
    try discriminate.
  injection Ho0 as ->. injection Ho1 as ->. reflexivity.
Defined.

Section XorBytes.

Lemma hexval_hexdigit (d : Z) : 0 <= d < 16 -> hexval (JS.hexdigit d) = Some d.
Proof.
  intros Hd. unfold JS.hexdigit, hexval. destruct (d <? 10) eqn:E.
  - apply Z.ltb_lt in E.
    replace (48 <=? 48 + d) with true by (symmetry; apply Z.leb_le; lia).
    replace (48 + d <=? 57) with true by (symmetry; apply Z.leb_le; lia).
    cbn [andb]. f_equal. lia.
  - apply Z.ltb_ge in E.
    replace (87 + d <=? 57) with false by (symmetry; apply Z.leb_gt; lia).
    rewrite andb_false_r.
    replace (97 <=? 87 + d) with true by (symmetry; apply Z.leb_le; lia).
    replace (87 + d <=? 102) with true by (symmetry; apply Z.leb_le; lia).
    cbn [andb]. f_equal. lia.
Qed.

Lemma hexOfBytes_pairs (bs : list Z) :
  hexOfBytes bs
  = flat_map (fun p => [fst p; snd p])
      (List.map (fun b => (JS.hexdigit (b / 16), JS.hexdigit (b mod 16))) bs).
Proof.
  unfold hexOfBytes. induction bs as [|b bs IH]; [reflexivity|].
  cbn [flat_map List.map fst snd]. now rewrite IH.
Qed.

(** Decoding the hexadecimal form of bytes. *)
Lemma decode_bytes (bs key : jsstring) :
  Forall byte bs -> Forall code_unit key ->
  length (clueApi_xor (hexOfBytes bs) key) = length bs
  /\ (forall (i : nat) (b : Z), bs !! i = Some b ->
        clueApi_xor (hexOfBytes bs) key !! i
        = Some (Z.lxor b (int_operand (keyByteAt key (2 * Z.of_nat i))))).
Proof.
  intros Hb Hk. rewrite hexOfBytes_pairs, clueApi_xor_pairs.
  set (pairs := List.map _ bs).
  assert (Hp : Forall (fun p => is_Some (hexval (fst p))
                                /\ is_Some (hexval (snd p))) pairs).
  { subst pairs. apply List.Forall_forall. intros p Hp.
    apply in_map_iff in Hp as (b & <- & Hin).
    rewrite List.Forall_forall in Hb. specialize (Hb b Hin). unfold byte in Hb.
    cbn [fst snd]. rewrite !hexval_hexdigit.
    - split; eexists; reflexivity.
    - apply Z.mod_pos_bound. lia.
    - split; [apply Z.div_pos; lia|apply Z.div_lt_upper_bound; lia]. }
  split.
  - rewrite xor_pairs_hex_length. subst pairs. apply length_map.
  - intros i b Hi.
    assert (Hpi : pairs !! i
                  = Some (JS.hexdigit (b / 16), JS.hexdigit (b mod 16))).
    { subst pairs. rewrite lookup_map. unfold jsstring in *. now rewrite Hi. }
    destruct (xor_pairs_hex pairs key 0 i _ _ Hk (Z.le_refl 0) Hp Hpi)
      as (h & l & Ha & Hl & Hout).
    assert (Hbyte : byte b).
    { rewrite List.Forall_forall in Hb. apply Hb, list_elem_of_In.
      eapply list_elem_of_lookup_2. exact Hi. }
    unfold byte in Hbyte.
    rewrite hexval_hexdigit in Ha
      by (split; [apply Z.div_pos; lia|apply Z.div_lt_upper_bound; lia]).
    rewrite hexval_hexdigit in Hl by (apply Z.mod_pos_bound; lia).
    injection Ha as <-. injection Hl as <-.
    rewrite Hout, Z.add_0_l. do 2 f_equal.
    pose proof (Z.div_mod b 16). lia.
Qed.

End XorBytes.

(** Decoding is its own inverse through the hexadecimal form: for bytes and
    a key of bytes, decoding the hexadecimal form of a decoded string with
    the same key gives back the bytes that were decoded first. *)
Theorem clueApi_xor_round_trip (bs key : jsstring) :
  Forall byte bs -> Forall byte key ->
  clueApi_xor (hexOfBytes (clueApi_xor (hexOfBytes bs) key)) key = bs.
Proof.
  intros Hb Hk.
  assert (Hku : Forall code_unit key).
  { eapply Forall_impl; [exact Hk|]. unfold byte, code_unit. intros; lia. }
  destruct (decode_bytes bs key Hb Hku) as [Hl1 Ho1].
  set (ys := clueApi_xor (hexOfBytes bs) key) in *.
  assert (Hkb : forall i : nat,
            0 <= int_operand (keyByteAt key (2 * Z.of_nat i)) < 256).
  { intros i. unfold keyByteAt. destruct key as [|c key']; [cbn; lia|].
    destruct (_ !! _) as [u|] eqn:E; [|cbn; lia].
    rewrite List.Forall_forall in Hk. apply (Hk u), list_elem_of_In.
    eapply list_elem_of_lookup_2. exact E. }
  assert (Hy : Forall byte ys).
  { apply Forall_lookup. intros i y Hy.
    destruct (lookup_lt_is_Some_2 bs i) as [b Hbi];
      [rewrite <- Hl1; eapply lookup_lt_Some; exact Hy|].
    assert (Hy' : Some y
                  = Some (Z.lxor b (int_operand (keyByteAt key (2 * Z.of_nat i)))))
      by (rewrite <- Hy; exact (Ho1 i b Hbi)).
    injection Hy' as ->.
    apply (lxor_below _ _ 8); [lia| |apply Hkb].
    rewrite List.Forall_forall in Hb. apply (Hb b), list_elem_of_In.
    eapply list_elem_of_lookup_2. exact Hbi. }
  destruct (decode_bytes ys key Hy Hku) as [Hl2 Ho2].
  apply list_eq. intros i.
  destruct (bs !! i) as [b|] eqn:Hbi.
  - etransitivity; [exact (Ho2 i _ (Ho1 i b Hbi))|].
    now rewrite Z.lxor_assoc, Z.lxor_nilpotent, Z.lxor_0_r.
  - transitivity (@None Z); [|symmetry; exact Hbi].
    apply lookup_ge_None_2. rewrite Hl2, Hl1. now apply lookup_ge_None_1.
Qed.

Lemma clueApi_xor_round_trip_witness :
  Forall byte (js "PEN") /\ Forall byte (js "key")
  /\ clueApi_xor (hexOfBytes (clueApi_xor (hexOfBytes (js "PEN")) (js "key")))
       (js "key") = js "PEN".
Proof.
  assert (H1 : Forall byte (js "PEN"))
    by (repeat constructor; unfold byte; cbn; lia).
  assert (H2 : Forall byte (js "key"))
    by (repeat constructor; unfold byte; cbn; lia).
  split; [exact H1|]. split; [exact H2|].
  exact (clueApi_xor_round_trip (js "PEN") (js "key") H1 H2).
Defined.

(** With the empty key nothing is combined and nothing throws: the bytes
    written in hexadecimal come back as they are. *)
Theorem clueApi_xor_empty_key (bs : jsstring) :
  Forall byte bs -> clueApi_xor (hexOfBytes bs) [] = bs.
Proof.
  intros Hb. destruct (decode_bytes bs [] Hb (List.Forall_nil _)) as [Hl Ho].
  apply list_eq. intros i. destruct (bs !! i) as [b|] eqn:Hbi.
  - etransitivity; [exact (Ho i b Hbi)|]. cbn [keyByteAt int_operand].
    now rewrite Z.lxor_0_r.
  - transitivity (@None Z); [|symmetry; exact Hbi].
    apply lookup_ge_None_2. rewrite Hl. now apply lookup_ge_None_1.
Qed.

Lemma clueApi_xor_empty_key_witness :
  Forall byte (js "PEN") /\ clueApi_xor (js "50454e") [] = js "PEN".
Proof.
  assert (H1 : Forall byte (js "PEN"))
    by (repeat constructor; unfold byte; cbn; lia).
  split; [exact H1|]. exact (clueApi_xor_empty_key (js "PEN") H1).
Defined.

Section RevealWord.

Lemma Qfloor_of_nat (index : Q) (i : nat) :
  (index == inject_Z (Z.of_nat i))%Q ->
  Qfloor index = Z.of_nat i
  /\ Qeq_bool index (inject_Z (Qfloor index)) = true.
Proof.
  intros E.
  assert (F : Qfloor index = Z.of_nat i)
    by (rewrite (Qfloor_comp _ _ E); apply Qfloor_Z).
  split; [exact F|]. apply Qeq_bool_iff. now rewrite F.
Qed.

Lemma revealWord_in_range (mapping : list entry) (index : Q) :
  (0 <= index)%Q -> (index < inject_Z (Z.of_nat (length mapping)))%Q ->
  Qeq_bool index (inject_Z (Qfloor index)) = true ->
  is_Some (mapping !! Z.to_nat (Qfloor index)).
Proof.
  intros H0 Hn E. apply Qeq_bool_iff in E. apply lookup_lt_is_Some_2.
  assert (0 <= Qfloor index).
  { change 0 with (Qfloor 0). now apply Qfloor_resp_le. }
  rewrite E in Hn. rewrite <- Zlt_Qlt in Hn. lia.
Qed.

End RevealWord.

(** [_clueApi.revealWord(index)] for a number [index]: it logs the
    out-of-range line exactly for an index below 0 or at least the number
    of entries; for an integer index in range it logs the length and the
    start of that entry, the pair [cluesMasked()] has at that index; for
    an index in range that is not an integer it throws, as [mapping[index]]
    is [undefined]. *)
Theorem clueApi_revealWord_spec (mapping : list entry) (index : Q) :
  let n := inject_Z (Z.of_nat (length mapping)) in
  (clueApi_revealWord mapping index = Ok IndexOutOfRange
   <-> (index < 0 \/ n <= index)%Q)
  /\ (clueApi_revealWord mapping index = TypeError
      <-> ((0 <= index /\ index < n)
           /\ ~ index == inject_Z (Qfloor index))%Q)
  /\ (forall i : nat,
        (index == inject_Z (Z.of_nat i))%Q -> (i < length mapping)%nat ->
        exists s l : Z,
          clueApi_cluesMasked mapping !! i = Some (s, l)
          /\ clueApi_revealWord mapping index = Ok (HintWord index l s)).
Proof.
  intros n. unfold clueApi_revealWord. fold n.
  destruct (Qle_bool 0 index) eqn:B0; cbn [negb orb].
  - apply Qle_bool_iff in B0. destruct (Qle_bool n index) eqn:Bn.
    + apply Qle_bool_iff in Bn. split; [|split].
      * split; [now right|reflexivity].
      * split; [discriminate|]. intros [[_ H] _].
        exfalso. exact (Qlt_not_le _ _ H Bn).
      * intros i E Hi. exfalso. apply (Qlt_not_le index n); [|exact Bn].
        rewrite E. subst n. rewrite <- Zlt_Qlt. lia.
    + assert (Hn : (index < n)%Q).
      { apply Qnot_le_lt. intros H. apply Qle_bool_iff in H. congruence. }
      destruct (Qeq_bool index (inject_Z (Qfloor index))) eqn:E.
      * destruct (revealWord_in_range mapping index B0 Hn E) as [m Hm].
        rewrite Hm. split; [|split].
        -- split; [discriminate|].
           intros [H|H]; exfalso;
             [exact (Qlt_not_le _ _ H B0)|exact (Qlt_not_le _ _ Hn H)].
        -- split; [discriminate|]. intros [_ H]. exfalso. apply H.
           now apply Qeq_bool_iff.
        -- intros i Ei Hi. destruct (Qfloor_of_nat index i Ei) as [F _].
           rewrite F, Nat2Z.id in Hm. exists (start m), (len m).
           split; [|reflexivity]. unfold clueApi_cluesMasked.
           rewrite lookup_map. now rewrite Hm.
      * split; [|split].
        -- split; [discriminate|].
           intros [H|H]; exfalso;
             [exact (Qlt_not_le _ _ H B0)|exact (Qlt_not_le _ _ Hn H)].
        -- split; [intros _|reflexivity]. split; [now split|].
           intros H. apply Qeq_bool_iff in H. congruence.
        -- intros i Ei Hi. destruct (Qfloor_of_nat index i Ei) as [_ F].
           congruence.
  - assert (H0 : (index < 0)%Q).
    { apply Qnot_le_lt. intros H. apply Qle_bool_iff in H. congruence. }
    split; [|split].
    + split; [now left|reflexivity].
    + split; [discriminate|]. intros [[H _] _].
      exfalso. exact (Qlt_not_le _ _ H0 H).
    + intros i E Hi. exfalso. apply (Qlt_not_le _ _ H0).
      rewrite E. change 0%Q with (inject_Z 0). rewrite <- Zle_Qle. lia.
Qed.
